(** * stream_chat events: the extensible-record codec and the dispatch calls

    A shallow embedding of [event.go] (type [Event], type [UserCustomEvent],
    their [UnmarshalJSON]/[MarshalJSON] methods, [Channel.SendEvent] and
    [Client.SendUserCustomEvent]) together with the parts of [encoding/json],
    [net/url] and [path] these functions go through. *)

From Stdlib Require Import String Ascii ZArith List Lia Bool.
From stdpp Require Import base option list gmap strings sorting.

Local Open Scope Z_scope.

(** ** Wire documents *)

(** A JSON number literal.  The decoder keeps the literal and converts it
    only when it stores it: with [strconv.ParseInt] into an [int] field, with
    [strconv.ParseFloat] into an [interface{}]. *)
Inductive number :=
| Integer (z : Z)            (* digits only, as in 42 or -7 *)
| Decimal (m : Z) (e : Z).   (* with a fraction or an exponent: m * 10^e *)

#[local] Unset Elimination Schemes.
Inductive json :=
| JNull
| JBool (b : bool)
| JNumber (n : number)
| JString (s : string)
| JArray (l : list json)
| JObject (members : list (string * json)).
#[local] Set Elimination Schemes.

(** [data []byte] is represented by what the scanner of [encoding/json]
    makes of it: [None] when the bytes are not one well-formed JSON value
    (truncated, trailing garbage, ...), [Some j] for the value they spell.
    The members of an object are kept in the order of the text, duplicate
    keys included; a string or a key is the string the decoder unquotes
    it to. *)
Definition data := option json.

(** ** Errors *)

Inductive error :=
| errorString (msg : string)          (* errors.New(msg) *)
| SyntaxError                         (* *json.SyntaxError *)
| UnmarshalTypeError (value : string) (* *json.UnmarshalTypeError *)
| UnmarshalerError                    (* returned by an embedded UnmarshalJSON *)
| TransportError (code : Z).          (* whatever makeRequest returns *)

Definition errors_New (msg : string) : error := errorString msg.

Inductive result (A : Type) :=
| Ok (a : A)
| Err (e : error).
Arguments Ok {A} a.
Arguments Err {A} e.

(** The error monad of the decoding functions; [x ← r; k] is stdpp's
    notation for its bind. *)
#[global] Instance result_bind : MBind result := λ A B k r,
  match r with
  | Ok a => k a
  | Err e => Err e
  end.

Definition is_Ok {A} (r : result A) : bool :=
  match r with Ok _ => true | Err _ => false end.

(** ** strconv *)

(** A Go int, 64 bits wide. *)
Definition int_min : Z := - 2 ^ 63.
Definition int_max : Z := 2 ^ 63 - 1.
Definition int_range (z : Z) : Prop := int_min ≤ z ≤ int_max.

(** strconv.ParseInt(lit, 10, 64) on a JSON number literal. *)
Definition ParseInt (n : number) : option Z :=
  match n with
  | Integer z => if bool_decide (int_range z) then Some z else None
  | Decimal _ _ => None
  end.

(** strconv.ParseFloat(lit, 64) fails exactly when the literal rounds to an
    infinity, that is when its magnitude reaches the largest float64 plus
    half a unit in the last place. *)
Definition float64_overflow : Z := 2 ^ 1024 - 2 ^ 970.

Definition ParseFloat_ok (n : number) : bool :=
  match n with
  | Integer z => bool_decide (Z.abs z < float64_overflow)
  | Decimal m e =>
      if bool_decide (0 ≤ e)
      then bool_decide (Z.abs m * 10 ^ e < float64_overflow)
      else bool_decide (Z.abs m < float64_overflow * 10 ^ (- e))
  end.

(** ** unicode/utf8

    A Go string is any sequence of bytes.  utf8.DecodeRuneInString reads
    the first byte and, for a leading byte, the range its second byte has
    to lie in and the number of continuation bytes that follow it; when a
    byte is missing or out of its range it returns (RuneError, 1). *)

Definition in_byte_range (lo hi : N) (c : ascii) : bool :=
  ((lo <=? N_of_ascii c) && (N_of_ascii c <=? hi))%N.

(** For a leading byte: the range accepted for the second byte and the
    number of bytes after the second. *)
Definition utf8_lead (c : ascii) : option (N * N * nat) :=
  let n := N_of_ascii c in
  if ((194 <=? n) && (n <=? 223))%N then Some (128, 191, 0%nat)%N
  else if (n =? 224)%N then Some (160, 191, 1%nat)%N
  else if ((225 <=? n) && (n <=? 236))%N then Some (128, 191, 1%nat)%N
  else if (n =? 237)%N then Some (128, 159, 1%nat)%N
  else if ((238 <=? n) && (n <=? 239))%N then Some (128, 191, 1%nat)%N
  else if (n =? 240)%N then Some (144, 191, 2%nat)%N
  else if ((241 <=? n) && (n <=? 243))%N then Some (128, 191, 2%nat)%N
  else if (n =? 244)%N then Some (128, 143, 2%nat)%N
  else None.

(** U+FFFD, the replacement rune, in UTF-8. *)
Definition RuneError : string :=
  String (ascii_of_N 239) (String (ascii_of_N 191) (String (ascii_of_N 189) "")).

(** What the encoder of encoding/json writes for a string: "String values
    encode as JSON strings coerced to valid UTF-8, replacing invalid bytes
    with the Unicode replacement rune".  Every byte at which DecodeRune
    returns (RuneError, 1) is replaced on its own; a well-formed sequence is
    copied. *)
Fixpoint coerce_utf8 (s : string) : string :=
  match s with
  | EmptyString => EmptyString
  | String c0 r0 =>
      let bad := RuneError +:+ coerce_utf8 r0 in
      if (N_of_ascii c0 <? 128)%N then String c0 (coerce_utf8 r0)
      else
        match utf8_lead c0, r0 with
        | Some (lo, hi, more), String c1 r1 =>
            if in_byte_range lo hi c1 then
              match more, r1 with
              | 0%nat, _ => String c0 (String c1 (coerce_utf8 r1))
              | 1%nat, String c2 r2 =>
                  if in_byte_range 128 191 c2
                  then String c0 (String c1 (String c2 (coerce_utf8 r2)))
                  else bad
              | 2%nat, String c2 (String c3 r3) =>
                  if in_byte_range 128 191 c2 && in_byte_range 128 191 c3
                  then String c0 (String c1 (String c2 (String c3 (coerce_utf8 r3))))
                  else bad
              | _, _ => bad
              end
            else bad
        | _, _ => bad
        end
  end.

(** utf8.ValidString: the strings the coercion leaves alone. *)
Definition utf8_valid (s : string) : Prop := coerce_utf8 s = s.

(** ** Key matching

    encoding/json matches an object key to a struct field "preferring an
    exact match but also accepting a case-insensitive match".  The folding
    maps ASCII letters to upper case; the only runes outside ASCII that fold
    onto an ASCII letter are U+017F (long s, bytes C5 BF) and U+212A (Kelvin
    sign, bytes E2 84 AA).  Every wire name below is ASCII, so against them
    this is the whole of the comparison. *)

Definition upper (c : ascii) : ascii :=
  let n := N_of_ascii c in
  if ((97 <=? n) && (n <=? 122))%N then ascii_of_N (n - 32) else c.

Fixpoint foldName (s : string) : string :=
  match s with
  | EmptyString => EmptyString
  | String c r =>
      match N_of_ascii c, r with
      | 197%N, String c1 r1 =>
          if (N_of_ascii c1 =? 191)%N then String "S" (foldName r1)
          else String c (foldName r)
      | 226%N, String c1 (String c2 r2) =>
          if ((N_of_ascii c1 =? 132) && (N_of_ascii c2 =? 170))%N
          then String "K" (foldName r2)
          else String c (foldName r)
      | _, _ => String (upper c) (foldName r)
      end
  end.

(** Equality of ASCII strings up to the case of their letters, written out
    byte by byte: two bytes are equal, or one is a capital letter and the
    other the same letter in lower case (32 further on). *)
Definition letter_pair (a b : N) : bool :=
  ((65 <=? a) && (a <=? 90) && (b =? a + 32))%N.

Definition char_equal_fold (c d : ascii) : bool :=
  let a := N_of_ascii c in
  let b := N_of_ascii d in
  (a =? b)%N || letter_pair a b || letter_pair b a.

Fixpoint equal_fold (s t : string) : bool :=
  match s, t with
  | EmptyString, EmptyString => true
  | String c s', String d t' => char_equal_fold c d && equal_fold s' t'
  | _, _ => false
  end.

Definition is_ascii (s : string) : bool :=
  forallb (λ c, (N_of_ascii c <? 128)%N) (list_ascii_of_string s).

(** ** json.Unmarshal into a struct, json.Marshal of a struct

    The reflection of encoding/json works from the field table of the struct
    type: for every field its wire name (from the tag), how a JSON value is
    stored into it, and what it emits (nothing when [omitempty] applies). *)

Section Struct.
Context {S F : Type}.
Variable fields : list F.                      (* in declaration order *)
Variable name : F → string.
Variable store : F → json → S → result S.
Variable emit : F → S → option json.

Definition lookup_field (key : string) : option F :=
  match find (λ f, bool_decide (name f = key)) fields with
  | Some f => Some f
  | None => find (λ f, bool_decide (foldName (name f) = foldName key)) fields
  end.

(** The members are stored one after the other, in the order of the text;
    a key that matches no field is skipped.  (The decoder goes on after a
    type error and reports it at the end; the value built so far is
    dropped by the callers below, so stopping at the first error is the
    same.) *)
Fixpoint decode_object (ms : list (string * json)) (s : S) : result S :=
  match ms with
  | [] => Ok s
  | (k, v) :: ms' =>
      match lookup_field k with
      | None => decode_object ms' s
      | Some f => s' ← store f v s; decode_object ms' s'
      end
  end.

(** json.Unmarshal(data, &s) for a struct s: null leaves s alone, an
    object is stored member by member, anything else is a type error. *)
Definition json_Unmarshal_struct (d : data) (s : S) : result S :=
  match d with
  | None => Err SyntaxError
  | Some JNull => Ok s
  | Some (JObject ms) => decode_object ms s
  | Some (JBool _) => Err (UnmarshalTypeError "bool")
  | Some (JNumber _) => Err (UnmarshalTypeError "number")
  | Some (JString _) => Err (UnmarshalTypeError "string")
  | Some (JArray _) => Err (UnmarshalTypeError "array")
  end.

(** The wire-visible key/value pairs of a struct value. *)
Definition json_Marshal_struct (s : S) : list (string * json) :=
  omap (λ f, (λ j, (name f, j)) <$> emit f s) fields.

(** Whether a member can be stored: its key matches no field, or the
    field it matches accepts its value. *)
Variable accepts : F → json → bool.

Definition member_ok (kv : string * json) : bool :=
  match lookup_field kv.1 with
  | Some f => accepts f kv.2
  | None => true
  end.

(** The documents json.Unmarshal stores into the struct without error:
    null, and the objects all of whose members can be stored. *)
Definition struct_ok (d : data) : bool :=
  match d with
  | Some JNull => true
  | Some (JObject ms) => forallb member_ok ms
  | _ => false
  end.
End Struct.

(** ** json.Unmarshal into interface{} and into map[string]interface{}

    What the decoder puts into an [interface{}] (nil, bool, float64, string,
    []interface{}, map[string]interface{}) is represented by the JSON value
    it was read from; a float64 by its literal.  A number that does not fit
    a float64 is a type error: the decoder records it, stores nil in its
    place and goes on. *)

Fixpoint generic_ok (j : json) : bool :=
  match j with
  | JNumber n => ParseFloat_ok n
  | JArray l => forallb generic_ok l
  | JObject ms => forallb (λ kv, generic_ok kv.2) ms
  | _ => true
  end.

(** The decoder unquotes every string and key to valid UTF-8, so these
    are the values an [interface{}] can have been decoded to; the encoder
    writes such a value as it is. *)
Fixpoint json_utf8 (j : json) : bool :=
  match j with
  | JString s => bool_decide (coerce_utf8 s = s)
  | JArray l => forallb json_utf8 l
  | JObject ms =>
      forallb (λ kv, bool_decide (coerce_utf8 kv.1 = kv.1) && json_utf8 kv.2) ms
  | _ => true
  end.

Fixpoint interface_of (j : json) : json :=
  match j with
  | JNumber n => if ParseFloat_ok n then j else JNull
  | JArray l => JArray (map interface_of l)
  | JObject ms => JObject (map (λ kv, (kv.1, interface_of kv.2)) ms)
  | _ => j
  end.

Definition store_members (ms : list (string * json)) (m : gmap string json)
    : gmap string json :=
  foldl (λ acc kv, <[kv.1 := interface_of kv.2]> acc) m ms.

(** json.Unmarshal(data, &m) for m of type map[string]interface{}: null sets
    the map to nil, an object adds its members to the map (a later duplicate
    overwrites an earlier one). *)
Definition json_Unmarshal_map (d : data) (m : gmap string json)
    : gmap string json * option error :=
  match d with
  | None => (m, Some SyntaxError)
  | Some JNull => (∅, None)
  | Some (JObject ms) =>
      (store_members ms m,
       if forallb (λ kv, generic_ok kv.2) ms then None
       else Some (UnmarshalTypeError "number"))
  | Some (JBool _) => (m, Some (UnmarshalTypeError "bool"))
  | Some (JNumber _) => (m, Some (UnmarshalTypeError "number"))
  | Some (JString _) => (m, Some (UnmarshalTypeError "string"))
  | Some (JArray _) => (m, Some (UnmarshalTypeError "array"))
  end.

(** The documents json.Unmarshal stores into the map without error: null,
    and the objects all of whose numbers fit a float64. *)
Definition map_ok (d : data) : bool :=
  match d with
  | Some JNull => true
  | Some (JObject ms) => forallb (λ kv, generic_ok kv.2) ms
  | _ => false
  end.

(** ** What the struct fields store and emit, by Go type *)

#[global] Instance result_ret : MRet result := λ A, Ok.

#[global] Instance result_fmap : FMap result := λ A B f r,
  match r with
  | Ok a => Ok (f a)
  | Err e => Err e
  end.

(** json.Marshaler and json.Unmarshaler.  An UnmarshalJSON of this package
    replaces its receiver (as [Event.UnmarshalJSON] below does with
    [*e = Event(e2)]), so it is a function of the document alone; [None] is
    an error.  MarshalJSON is taken to return a document. *)
Class JSONCodec (T : Type) := {
  MarshalJSON : T → json;
  UnmarshalJSON : json → option T;
}.

Definition type_error {A} (j : json) : result A :=
  Err (UnmarshalTypeError
         match j with
         | JNull => "null" | JBool _ => "bool" | JNumber _ => "number"
         | JString _ => "string" | JArray _ => "array" | JObject _ => "object"
         end).

(** A string field: null is a no-op, a JSON string is stored. *)
Definition store_string (j : json) (cur : string) : result string :=
  match j with
  | JNull => Ok cur
  | JString s => Ok s
  | _ => type_error j
  end.

(** An int field: null is a no-op, a number goes through ParseInt. *)
Definition store_int (j : json) (cur : Z) : result Z :=
  match j with
  | JNull => Ok cur
  | JNumber n =>
      match ParseInt n with
      | Some z => Ok z
      | None => type_error j
      end
  | _ => type_error j
  end.

(** A pointer field *T: null stores nil, anything else goes to the
    UnmarshalJSON of a T. *)
Definition store_pointer {T} `{JSONCodec T} (j : json) : result (option T) :=
  match j with
  | JNull => Ok None
  | _ =>
      match UnmarshalJSON j with
      | Some x => Ok (Some x)
      | None => Err UnmarshalerError
      end
  end.

(** A slice field []*T: null stores nil, an array is stored element by
    element.  (A nil slice and an empty one are both the empty list.) *)
Definition store_slice {T} `{JSONCodec T} (j : json) : result (list (option T)) :=
  match j with
  | JNull => Ok []
  | JArray l => mapM store_pointer l
  | _ => type_error j
  end.

(** A field of a struct type that implements json.Unmarshaler, such as
    time.Time, whose UnmarshalJSON ignores null. *)
Definition store_value {T} `{JSONCodec T} (j : json) (cur : T) : result T :=
  match j with
  | JNull => Ok cur
  | _ =>
      match UnmarshalJSON j with
      | Some x => Ok x
      | None => Err UnmarshalerError
      end
  end.

(** [omitempty] drops "false, 0, a nil pointer, a nil interface value, and
    any empty array, slice, map, or string"; it never drops a struct.  A
    string that is written is written coerced to valid UTF-8. *)
Definition emit_string (omitempty : bool) (s : string) : option json :=
  if omitempty && bool_decide (s = "") then None
  else Some (JString (coerce_utf8 s)).

Definition emit_int (omitempty : bool) (z : Z) : option json :=
  if omitempty && bool_decide (z = 0) then None else Some (JNumber (Integer z)).

Definition marshal_pointer {T} `{JSONCodec T} (p : option T) : json :=
  match p with
  | None => JNull
  | Some x => MarshalJSON x
  end.

Definition emit_pointer {T} `{JSONCodec T} (omitempty : bool) (p : option T)
    : option json :=
  match p with
  | None => if omitempty then None else Some JNull
  | Some x => Some (MarshalJSON x)
  end.

Definition emit_slice {T} `{JSONCodec T} (omitempty : bool) (l : list (option T))
    : option json :=
  if omitempty && bool_decide (l = []) then None
  else Some (JArray (map marshal_pointer l)).

Definition emit_value {T} `{JSONCodec T} (omitempty : bool) (x : T) : option json :=
  Some (MarshalJSON x).

(** A value of an embedded type that its own JSON methods carry through:
    its encoding is not null (which no UnmarshalJSON is called for), holds
    only numbers a float64 holds, and decodes to the value. *)
Definition is_null (j : json) : bool :=
  match j with JNull => true | _ => false end.

Definition lawful {T} `{JSONCodec T} (x : T) : Prop :=
  UnmarshalJSON (MarshalJSON x) = Some x
  ∧ is_null (MarshalJSON x) = false
  ∧ generic_ok (MarshalJSON x) = true.

Definition lawful_pointer {T} `{JSONCodec T} (p : option T) : Prop :=
  match p with
  | Some x => lawful x
  | None => True
  end.

(** ** Declarations of the package that live in other files

    [Message], [Reaction], [Channel], [ChannelMember], [User], [Client] and
    [Response] are declared elsewhere in the package, [time.Time] in the
    standard library.  They are taken as they are used here: as types with
    their JSON methods, [User] with its [ID] field, [Channel] with the three
    fields [SendEvent] reads. *)
Class Package := {
  Message : Type;
  Reaction : Type;
  Channel : Type;
  ChannelMember : Type;
  UserFields : Type;                 (* the fields of User other than ID *)
  UserFields_zero : UserFields;
  Time : Type;
  Time_zero : Time;                  (* time.Time{} *)
  Client : Type;
  Response : Type;
  Response_zero : Response;
  Channel_Type : Channel → string;
  Channel_ID : Channel → string;
  Channel_client : Channel → Client;
}.

Record User `{Package} := {
  User_ID : string;
  User_fields : UserFields;
}.

Class Codecs `{Package} := {
  Message_codec :: JSONCodec Message;
  Reaction_codec :: JSONCodec Reaction;
  Channel_codec :: JSONCodec Channel;
  ChannelMember_codec :: JSONCodec ChannelMember;
  User_codec :: JSONCodec User;
  Time_codec :: JSONCodec Time;
}.

(** ** event.go: the types *)

Section Types.
Context `{Codecs}.

(** type EventType string *)
Definition EventType := string.

Definition EventMessageNew : EventType := "message.new".
Definition EventMessageUpdated : EventType := "message.updated".
Definition EventMessageDeleted : EventType := "message.deleted".
Definition EventMessageRead : EventType := "message.read".
Definition EventReactionNew : EventType := "reaction.new".
Definition EventReactionDeleted : EventType := "reaction.deleted".
Definition EventMemberAdded : EventType := "member.added".
Definition EventMemberUpdated : EventType := "member.updated".
Definition EventMemberRemoved : EventType := "member.removed".
Definition EventChannelCreated : EventType := "channel.created".
Definition EventChannelUpdated : EventType := "channel.updated".
Definition EventChannelDeleted : EventType := "channel.deleted".
Definition EventChannelTruncated : EventType := "channel.truncated".
Definition EventHealthCheck : EventType := "health.check".
Definition EventNotificationNewMessage : EventType := "notification.message_new".
Definition EventNotificationMarkRead : EventType := "notification.mark_read".
Definition EventNotificationInvited : EventType := "notification.invited".
Definition EventNotificationInviteAccepted : EventType := "notification.invite_accepted".
Definition EventNotificationAddedToChannel : EventType := "notification.added_to_channel".
Definition EventNotificationRemovedFromChannel : EventType := "notification.removed_from_channel".
Definition EventNotificationMutesUpdated : EventType := "notification.mutes_updated".
Definition EventTypingStart : EventType := "typing.start".
Definition EventTypingStop : EventType := "typing.stop".
Definition EventUserMuted : EventType := "user.muted".
Definition EventUserUnmuted : EventType := "user.unmuted".
Definition EventUserPresenceChanged : EventType := "user.presence.changed".
Definition EventUserWatchingStart : EventType := "user.watching.start".
Definition EventUserWatchingStop : EventType := "user.watching.stop".
Definition EventUserUpdated : EventType := "user.updated".

Definition EventType_constants : list EventType :=
  [EventMessageNew; EventMessageUpdated; EventMessageDeleted; EventMessageRead;
   EventReactionNew; EventReactionDeleted;
   EventMemberAdded; EventMemberUpdated; EventMemberRemoved;
   EventChannelCreated; EventChannelUpdated; EventChannelDeleted;
   EventChannelTruncated; EventHealthCheck;
   EventNotificationNewMessage; EventNotificationMarkRead;
   EventNotificationInvited; EventNotificationInviteAccepted;
   EventNotificationAddedToChannel; EventNotificationRemovedFromChannel;
   EventNotificationMutesUpdated;
   EventTypingStart; EventTypingStop;
   EventUserMuted; EventUserUnmuted; EventUserPresenceChanged;
   EventUserWatchingStart; EventUserWatchingStop; EventUserUpdated].

(** type Event struct.  A pointer is an [option], nil being [None]; the
    map ExtraData is a finite map, nil being the empty one. *)
Record Event := {
  Event_CID : string;
  Event_Type : EventType;
  Event_Message : option Message;
  Event_Reaction : option Reaction;
  Event_Channel : option Channel;
  Event_Member : option ChannelMember;
  Event_Members : list (option ChannelMember);
  Event_User : option User;
  Event_UserID : string;
  Event_OwnUser : option User;
  Event_WatcherCount : Z;
  Event_ExtraData : gmap string json;
  Event_CreatedAt : Time;
}.

Definition Event_zero : Event :=
  Build_Event "" "" None None None None [] None "" None 0 ∅ Time_zero.

(** type eventForJSON Event: the same struct, without the methods of Event,
    so that encoding/json treats it by reflection. *)
Definition eventForJSON : Type := Event.

(** type UserCustomEvent struct *)
Record UserCustomEvent := {
  UserCustomEvent_Type : string;
  UserCustomEvent_ExtraData : gmap string json;
  UserCustomEvent_CreatedAt : Time;
}.

Definition UserCustomEvent_zero : UserCustomEvent :=
  Build_UserCustomEvent "" ∅ Time_zero.

(** type userCustomEventForJSON UserCustomEvent *)
Definition userCustomEventForJSON : Type := UserCustomEvent.

(** The field tables of eventForJSON and userCustomEventForJSON: the
    exported fields but ExtraData, whose tag is "-". *)
Inductive EventField :=
| fCID | fType | fMessage | fReaction | fChannel | fMember | fMembers
| fUser | fUserID | fOwnUser | fWatcherCount | fCreatedAt.

Definition Event_fields : list EventField :=
  [fCID; fType; fMessage; fReaction; fChannel; fMember; fMembers;
   fUser; fUserID; fOwnUser; fWatcherCount; fCreatedAt].

(** The first part of each json tag. *)
Definition Event_name (f : EventField) : string :=
  match f with
  | fCID => "cid"
  | fType => "type"
  | fMessage => "message"
  | fReaction => "reaction"
  | fChannel => "channel"
  | fMember => "member"
  | fMembers => "members"
  | fUser => "user"
  | fUserID => "user_id"
  | fOwnUser => "me"
  | fWatcherCount => "watcher_count"
  | fCreatedAt => "created_at"
  end.

(** Whether the tag says omitempty. *)
Definition Event_omitempty (f : EventField) : bool :=
  match f with
  | fType => false
  | _ => true
  end.

Definition Event_emit (f : EventField) (e : Event) : option json :=
  let o := Event_omitempty f in
  match f with
  | fCID => emit_string o (Event_CID e)
  | fType => emit_string o (Event_Type e)
  | fMessage => emit_pointer o (Event_Message e)
  | fReaction => emit_pointer o (Event_Reaction e)
  | fChannel => emit_pointer o (Event_Channel e)
  | fMember => emit_pointer o (Event_Member e)
  | fMembers => emit_slice o (Event_Members e)
  | fUser => emit_pointer o (Event_User e)
  | fUserID => emit_string o (Event_UserID e)
  | fOwnUser => emit_pointer o (Event_OwnUser e)
  | fWatcherCount => emit_int o (Event_WatcherCount e)
  | fCreatedAt => emit_value o (Event_CreatedAt e)
  end.

Definition Event_store (f : EventField) (j : json) (e : Event) : result Event :=
  let '(Build_Event cid ty msg rea ch mem mems usr uid own wc extra cat) := e in
  match f with
  | fCID => v ← store_string j cid;
      Ok (Build_Event v ty msg rea ch mem mems usr uid own wc extra cat)
  | fType => v ← store_string j ty;
      Ok (Build_Event cid v msg rea ch mem mems usr uid own wc extra cat)
  | fMessage => v ← store_pointer j;
      Ok (Build_Event cid ty v rea ch mem mems usr uid own wc extra cat)
  | fReaction => v ← store_pointer j;
      Ok (Build_Event cid ty msg v ch mem mems usr uid own wc extra cat)
  | fChannel => v ← store_pointer j;
      Ok (Build_Event cid ty msg rea v mem mems usr uid own wc extra cat)
  | fMember => v ← store_pointer j;
      Ok (Build_Event cid ty msg rea ch v mems usr uid own wc extra cat)
  | fMembers => v ← store_slice j;
      Ok (Build_Event cid ty msg rea ch mem v usr uid own wc extra cat)
  | fUser => v ← store_pointer j;
      Ok (Build_Event cid ty msg rea ch mem mems v uid own wc extra cat)
  | fUserID => v ← store_string j uid;
      Ok (Build_Event cid ty msg rea ch mem mems usr v own wc extra cat)
  | fOwnUser => v ← store_pointer j;
      Ok (Build_Event cid ty msg rea ch mem mems usr uid v wc extra cat)
  | fWatcherCount => v ← store_int j wc;
      Ok (Build_Event cid ty msg rea ch mem mems usr uid own v extra cat)
  | fCreatedAt => v ← store_value j cat;
      Ok (Build_Event cid ty msg rea ch mem mems usr uid own wc extra v)
  end.

Inductive UserCustomEventField := ufType | ufCreatedAt.

Definition UserCustomEvent_fields : list UserCustomEventField :=
  [ufType; ufCreatedAt].

Definition UserCustomEvent_name (f : UserCustomEventField) : string :=
  match f with
  | ufType => "type"
  | ufCreatedAt => "created_at"
  end.

Definition UserCustomEvent_omitempty (f : UserCustomEventField) : bool :=
  match f with
  | ufType => false
  | ufCreatedAt => true
  end.

Definition UserCustomEvent_emit (f : UserCustomEventField) (e : UserCustomEvent)
    : option json :=
  let o := UserCustomEvent_omitempty f in
  match f with
  | ufType => emit_string o (UserCustomEvent_Type e)
  | ufCreatedAt => emit_value o (UserCustomEvent_CreatedAt e)
  end.

Definition UserCustomEvent_store (f : UserCustomEventField) (j : json)
    (e : UserCustomEvent) : result UserCustomEvent :=
  let '(Build_UserCustomEvent ty extra cat) := e in
  match f with
  | ufType => v ← store_string j ty; Ok (Build_UserCustomEvent v extra cat)
  | ufCreatedAt => v ← store_value j cat; Ok (Build_UserCustomEvent ty extra v)
  end.
End Types.

(** ** json.go, as the specification describes it *)

(** Modelled from the spec: [removeFromMap(m, obj)], whose definition
    (json.go) is not among the sources.  "computes extra as the document
    with every key that matches a known field's wire name removed,
    regardless of whether that known field was present/non-empty in this
    particular document".  [names] are the wire names of the type of obj. *)
Definition removeFromMap (m : gmap string json) (names : list string)
    : gmap string json :=
  foldr delete m names.

(** json.Marshal writes the keys of a map in sorted order (byte-wise). *)
Definition key_le (x y : string * json) : Prop := String.leb x.1 y.1.

#[global] Instance key_le_dec x y : Decision (key_le x y) := _.

Definition sorted_members (m : gmap string json) : list (string * json) :=
  merge_sort key_le (map_to_list m).

(** Modelled from the spec: the merge inside [addToMapAndMarshal], whose
    definition (json.go) is not among the sources.  "Produces the
    wire-visible key/value set of known (applying each field's own
    omit-if-empty rule), then merges in every key from extra that is not
    already one of those wire-visible keys."  [known] is the wire-visible
    key/value set of obj, [m] the extra map. *)
Definition merged (m : gmap string json) (known : list (string * json))
    : gmap string json :=
  list_to_map known ∪ m.

(** Modelled from the spec: [addToMapAndMarshal(m, obj)], whose definition
    (json.go) is not among the sources.  The result of the merge is "a
    single flat document (one JSON object, conceptually a mapping from
    string to arbitrary value, keys unique)". *)
Definition addToMapAndMarshal (m : gmap string json) (known : list (string * json))
    : result data :=
  Ok (Some (JObject (sorted_members (merged m known)))).

(** ** event.go: the codec methods *)

Section Codec.
Context `{Codecs}.

Definition Event_names : list string := Event_name <$> Event_fields.
Definition UserCustomEvent_names : list string :=
  UserCustomEvent_name <$> UserCustomEvent_fields.

Definition Event_set_ExtraData (m : gmap string json) (e : Event) : Event :=
  let '(Build_Event cid ty msg rea ch mem mems usr uid own wc _ cat) := e in
  Build_Event cid ty msg rea ch mem mems usr uid own wc m cat.

Definition UserCustomEvent_set_ExtraData (m : gmap string json)
    (e : UserCustomEvent) : UserCustomEvent :=
  let '(Build_UserCustomEvent ty _ cat) := e in
  Build_UserCustomEvent ty m cat.

(** json.Unmarshal(data, &e2) for e2 of type eventForJSON, a type with the
    fields of Event and none of its methods. *)
Definition json_Unmarshal_eventForJSON (d : data) (e2 : eventForJSON)
    : result eventForJSON :=
  json_Unmarshal_struct Event_fields Event_name Event_store d e2.

(** func (e *Event) UnmarshalJSON(data []byte) error.  The result is the
    value of the receiver afterwards and the error returned. *)
Definition Event_UnmarshalJSON (e : Event) (d : data) : Event * option error :=
  match json_Unmarshal_eventForJSON d Event_zero with
  | Err err => (e, Some err)
  | Ok e2 =>
      let e := e2 in
      let '(m, err) := json_Unmarshal_map d (Event_ExtraData e) in
      match err with
      | Some err => (Event_set_ExtraData m e, Some err)
      | None => (Event_set_ExtraData (removeFromMap m Event_names) e, None)
      end
  end.

(** func (e Event) MarshalJSON() ([]byte, error) *)
Definition Event_MarshalJSON (e : Event) : result data :=
  addToMapAndMarshal (Event_ExtraData e)
    (json_Marshal_struct Event_fields Event_name Event_emit e).

Definition json_Unmarshal_userCustomEventForJSON (d : data)
    (e2 : userCustomEventForJSON) : result userCustomEventForJSON :=
  json_Unmarshal_struct UserCustomEvent_fields UserCustomEvent_name
    UserCustomEvent_store d e2.

(** func (e *UserCustomEvent) UnmarshalJSON(data []byte) error *)
Definition UserCustomEvent_UnmarshalJSON (e : UserCustomEvent) (d : data)
    : UserCustomEvent * option error :=
  match json_Unmarshal_userCustomEventForJSON d UserCustomEvent_zero with
  | Err err => (e, Some err)
  | Ok e2 =>
      let e := e2 in
      let '(m, err) := json_Unmarshal_map d (UserCustomEvent_ExtraData e) in
      match err with
      | Some err => (UserCustomEvent_set_ExtraData m e, Some err)
      | None =>
          (UserCustomEvent_set_ExtraData (removeFromMap m UserCustomEvent_names) e,
           None)
      end
  end.

(** func (e UserCustomEvent) MarshalJSON() ([]byte, error) *)
Definition UserCustomEvent_MarshalJSON (e : UserCustomEvent) : result data :=
  addToMapAndMarshal (UserCustomEvent_ExtraData e)
    (json_Marshal_struct UserCustomEvent_fields UserCustomEvent_name
       UserCustomEvent_emit e).

(** *** Vocabulary for the statements *)

#[global] Instance EventField_eq_dec : EqDecision EventField.
Proof. solve_decision. Defined.

#[global] Instance UserCustomEventField_eq_dec : EqDecision UserCustomEventField.
Proof. solve_decision. Defined.

(** The field of the struct a key is stored into, if any. *)
Definition Event_field_of (key : string) : option EventField :=
  lookup_field Event_fields Event_name key.

Definition UserCustomEvent_field_of (key : string) : option UserCustomEventField :=
  lookup_field UserCustomEvent_fields UserCustomEvent_name key.

(** A field accepts a JSON value when storing it succeeds. *)
Definition Event_accepts (f : EventField) (j : json) : bool :=
  is_Ok (Event_store f j Event_zero).

Definition UserCustomEvent_accepts (f : UserCustomEventField) (j : json) : bool :=
  is_Ok (UserCustomEvent_store f j UserCustomEvent_zero).

(** The documents whose known fields can all be stored, and the documents
    that decode. *)
Definition Event_typed_ok (d : data) : bool :=
  struct_ok Event_fields Event_name Event_accepts d.

Definition Event_document_ok (d : data) : bool :=
  Event_typed_ok d && map_ok d.

Definition UserCustomEvent_typed_ok (d : data) : bool :=
  struct_ok UserCustomEvent_fields UserCustomEvent_name UserCustomEvent_accepts d.

Definition UserCustomEvent_document_ok (d : data) : bool :=
  UserCustomEvent_typed_ok d && map_ok d.

(** Two events have the same value in a field. *)
Definition Event_agree (f : EventField) (e1 e2 : Event) : Prop :=
  match f with
  | fCID => Event_CID e1 = Event_CID e2
  | fType => Event_Type e1 = Event_Type e2
  | fMessage => Event_Message e1 = Event_Message e2
  | fReaction => Event_Reaction e1 = Event_Reaction e2
  | fChannel => Event_Channel e1 = Event_Channel e2
  | fMember => Event_Member e1 = Event_Member e2
  | fMembers => Event_Members e1 = Event_Members e2
  | fUser => Event_User e1 = Event_User e2
  | fUserID => Event_UserID e1 = Event_UserID e2
  | fOwnUser => Event_OwnUser e1 = Event_OwnUser e2
  | fWatcherCount => Event_WatcherCount e1 = Event_WatcherCount e2
  | fCreatedAt => Event_CreatedAt e1 = Event_CreatedAt e2
  end.

Definition UserCustomEvent_agree (f : UserCustomEventField)
    (e1 e2 : UserCustomEvent) : Prop :=
  match f with
  | ufType => UserCustomEvent_Type e1 = UserCustomEvent_Type e2
  | ufCreatedAt => UserCustomEvent_CreatedAt e1 = UserCustomEvent_CreatedAt e2
  end.

Definition Event_set_Type (ty : EventType) (e : Event) : Event :=
  let '(Build_Event cid _ msg rea ch mem mems usr uid own wc extra cat) := e in
  Build_Event cid ty msg rea ch mem mems usr uid own wc extra cat.

(** The members of the JSON object in [d], for the statements about
    encoded documents. *)
Definition members_of (d : data) : list (string * json) :=
  match d with
  | Some (JObject ms) => ms
  | _ => []
  end.

(** The values of the fields that JSON carries through unchanged: a string
    that is valid UTF-8 (another one is written coerced), an int of 64
    bits, an embedded value that its own methods carry through. *)
Definition Event_fields_portable (e : Event) : Prop :=
  utf8_valid (Event_CID e)
  ∧ utf8_valid (Event_Type e)
  ∧ utf8_valid (Event_UserID e)
  ∧ int_range (Event_WatcherCount e)
  ∧ lawful_pointer (Event_Message e)
  ∧ lawful_pointer (Event_Reaction e)
  ∧ lawful_pointer (Event_Channel e)
  ∧ lawful_pointer (Event_Member e)
  ∧ Forall lawful_pointer (Event_Members e)
  ∧ lawful_pointer (Event_User e)
  ∧ lawful_pointer (Event_OwnUser e)
  ∧ lawful (Event_CreatedAt e).

Definition UserCustomEvent_fields_portable (e : UserCustomEvent) : Prop :=
  utf8_valid (UserCustomEvent_Type e)
  ∧ lawful (UserCustomEvent_CreatedAt e).

(** An entry of an extra map that JSON carries through unchanged: key and
    value are such as the decoder produces. *)
Definition extra_portable (k : string) (v : json) : Prop :=
  utf8_valid k ∧ json_utf8 v = true ∧ generic_ok v = true.
End Codec.

(** ** net/url and path *)

(** shouldEscape(c, encodePathSegment) *)
Definition shouldEscape (c : ascii) : bool :=
  let n := N_of_ascii c in
  if ((97 <=? n) && (n <=? 122) || (65 <=? n) && (n <=? 90)
      || (48 <=? n) && (n <=? 57))%N
  then false
  else if bool_decide (c ∈ list_ascii_of_string "-_.~") then false
  else if bool_decide (c ∈ list_ascii_of_string "$&+,/:;=?@")
  then bool_decide (c ∈ list_ascii_of_string "/;,?")
  else true.

Definition upperhex (n : N) : ascii :=
  default "0"%char (String.get (N.to_nat n) "0123456789ABCDEF").

(** url.PathEscape *)
Fixpoint PathEscape (s : string) : string :=
  match s with
  | EmptyString => EmptyString
  | String c r =>
      if shouldEscape c
      then String "%" (String (upperhex (N_of_ascii c / 16))
                         (String (upperhex (N_of_ascii c mod 16)) (PathEscape r)))
      else String c (PathEscape r)
  end.

Fixpoint split_slash (s : string) : list string :=
  match s with
  | EmptyString => [EmptyString]
  | String c r =>
      if Ascii.eqb c "/" then EmptyString :: split_slash r
      else match split_slash r with
           | h :: t => String c h :: t
           | [] => [String c EmptyString]
           end
  end.

(** The elements of a cleaned path, last one first: an empty element and
    "." are dropped, ".." takes back the element before it; where there is
    none to take back it is dropped in a rooted path and kept otherwise. *)
Fixpoint clean_elements (rooted : bool) (segs : list string) (out : list string)
    : list string :=
  match segs with
  | [] => out
  | seg :: segs' =>
      if bool_decide (seg = "") || bool_decide (seg = ".")
      then clean_elements rooted segs' out
      else if bool_decide (seg = "..")
      then match out with
           | top :: out' =>
               if bool_decide (top = "..")
               then clean_elements rooted segs' (seg :: out)
               else clean_elements rooted segs' out'
           | [] =>
               if rooted then clean_elements rooted segs' out
               else clean_elements rooted segs' [seg]
           end
      else clean_elements rooted segs' (seg :: out)
  end.

Definition is_rooted (p : string) : bool :=
  match p with
  | String c _ => Ascii.eqb c "/"
  | EmptyString => false
  end.

(** path.Clean *)
Definition path_Clean (p : string) : string :=
  let rooted := is_rooted p in
  let out := String.concat "/" (rev (clean_elements rooted (split_slash p) [])) in
  let out := if rooted then String "/" out else out in
  if bool_decide (out = "") then "." else out.

(** path.Join: "Empty elements are ignored. The result is Cleaned."  The
    elements from the first non-empty one on are joined with slashes. *)
Fixpoint path_Join (elem : list string) : string :=
  match elem with
  | [] => ""
  | e :: rest =>
      if bool_decide (e = "") then path_Join rest
      else path_Clean (String.concat "/" elem)
  end.

(** The characters of a URL path that need no quoting (RFC 3986, pchar):
    ASCII letters and digits, the marks and delimiters listed, and the
    percent sign of an escape. *)
Definition segment_char (c : ascii) : bool :=
  let n := N_of_ascii c in
  ((65 <=? n) && (n <=? 90) || (97 <=? n) && (n <=? 122)
   || (48 <=? n) && (n <=? 57))%N
  || bool_decide (c ∈ list_ascii_of_string "-_.~$&+:=@%").

(** A path made of such characters and slashes: it holds no '?', no '#',
    no space, no control byte and nothing outside ASCII. *)
Definition path_char (c : ascii) : bool := segment_char c || Ascii.eqb c "/".

Definition plain_path (p : string) : bool :=
  forallb path_char (list_ascii_of_string p).

(** ** event.go: the dispatch calls *)

Section Dispatch.
Context `{Codecs}.

(** The request values: struct{ Event *Event `json:"event"` } and
    struct{ Event *UserCustomEvent `json:"event"` }, with the event the
    pointer leads to at the time of the call. *)
Inductive body :=
| EventBody (event : Event)
| UserCustomEventBody (event : UserCustomEvent).

Record Request := {
  Request_client : Client;
  Request_method : string;
  Request_path : string;
  Request_body : body;
}.

(** What makeRequest puts on the wire: the request value through
    json.Marshal, which calls the MarshalJSON of the event. *)
Definition json_Marshal_body (b : body) : result data :=
  d ← match b with
      | EventBody e => Event_MarshalJSON e
      | UserCustomEventBody e => UserCustomEvent_MarshalJSON e
      end;
  match d with
  | Some j => Ok (Some (JObject [("event", j)]))
  | None => Err SyntaxError
  end.

(** The transport: what the server answers to a request.  The calls
    issued so far are the state of the world. *)
Variable roundTrip : Request → Response * option error.

Definition World := list Request.

(** c.makeRequest(ctx, method, path, nil, data, &resp), declared in
    client.go: one call of the transport. *)
Definition makeRequest (c : Client) (method path : string) (b : body)
    (w : World) : (Response * option error) * World :=
  let req := Build_Request c method path b in
  (roundTrip req, w ++ [req]).

Definition http_MethodPost : string := "POST".

Definition Event_set_User (u : option User) (e : Event) : Event :=
  let '(Build_Event cid ty msg rea ch mem mems _ uid own wc extra cat) := e in
  Build_Event cid ty msg rea ch mem mems u uid own wc extra cat.

(** func (ch *Channel) SendEvent(ctx, event *Event, userID string),
    returning a *Response and an error.  [event] is what the pointer leads
    to, [None] for nil; the result carries what it leads to afterwards. *)
Definition SendEvent (ch : Channel) (event : option Event) (userID : string)
    (w : World) : (option Response * option error) * option Event * World :=
  match event with
  | None => ((None, Some (errors_New "event is nil")), None, w)
  | Some ev =>
      let ev := Event_set_User (Some (Build_User _ userID UserFields_zero)) ev in
      let req := EventBody ev in
      let p := path_Join ["channels"; PathEscape (Channel_Type ch);
                          PathEscape (Channel_ID ch); "event"] in
      let '(resp, err, w') :=
        makeRequest (Channel_client ch) http_MethodPost p req w in
      ((Some resp, err), Some ev, w')
  end.

(** func (c *Client) SendUserCustomEvent(ctx, targetUserID string,
    event *UserCustomEvent), returning a *Response and an error. *)
Definition SendUserCustomEvent (c : Client) (targetUserID : string)
    (event : option UserCustomEvent) (w : World)
    : (option Response * option error) * option UserCustomEvent * World :=
  match event with
  | None => ((None, Some (errors_New "event is nil")), None, w)
  | Some ev =>
      if bool_decide (targetUserID = "")
      then ((None, Some (errors_New "targetUserID should not be empty")),
            Some ev, w)
      else
        let req := UserCustomEventBody ev in
        let p := path_Join ["users"; PathEscape targetUserID; "event"] in
        let '(resp, err, w') := makeRequest c http_MethodPost p req w in
        ((Some resp, err), Some ev, w')
  end.
End Dispatch.

(** ** A small instance of the package

    Entities that carry an id and marshal to {"id": ...}, channels with a
    type and an id, times as their RFC 3339 text, a transport that answers
    every request with status 201. *)
Module Sample.
Definition id_marshal (s : string) : json := JObject [("id", JString s)].

Definition id_unmarshal (j : json) : option string :=
  match j with
  | JObject [(k, JString s)] => if bool_decide (k = "id") then Some s else None
  | _ => None
  end.

#[export] Instance package : Package := {|
  Message := string;
  Reaction := string;
  Channel := string * string;
  ChannelMember := string;
  UserFields := unit;
  UserFields_zero := tt;
  Time := string;
  Time_zero := "0001-01-01T00:00:00Z";
  Client := unit;
  Response := Z;
  Response_zero := 0;
  Channel_Type := fst;
  Channel_ID := snd;
  Channel_client := λ _, tt;
|}.

Definition id_codec : JSONCodec string :=
  {| MarshalJSON := id_marshal; UnmarshalJSON := id_unmarshal |}.

Definition channel_codec : JSONCodec (string * string) := {|
  MarshalJSON := λ c, JObject [("type", JString c.1); ("id", JString c.2)];
  UnmarshalJSON := λ j,
    match j with
    | JObject [(k1, JString t); (k2, JString i)] =>
        if bool_decide (k1 = "type") && bool_decide (k2 = "id")
        then Some (t, i) else None
    | _ => None
    end;
|}.

Definition user_codec : JSONCodec User := {|
  MarshalJSON := λ u, id_marshal (User_ID u);
  UnmarshalJSON := λ j, (λ s, Build_User _ s tt) <$> id_unmarshal j;
|}.

Definition time_codec : JSONCodec string := {|
  MarshalJSON := JString;
  UnmarshalJSON := λ j, match j with JString s => Some s | _ => None end;
|}.

#[export] Instance codecs : Codecs := {|
  Message_codec := id_codec;
  Reaction_codec := id_codec;
  Channel_codec := channel_codec;
  ChannelMember_codec := id_codec;
  User_codec := user_codec;
  Time_codec := time_codec;
|}.

Definition roundTrip (r : Request) : Response * option error := (201, None).

Definition alice : User := Build_User _ "alice" tt.

(** An event with every kind of field set and two extra entries. *)
Definition event : Event := {|
  Event_CID := "messaging:general";
  Event_Type := EventMessageNew;
  Event_Message := Some "m1";
  Event_Reaction := None;
  Event_Channel := Some ("messaging", "general");
  Event_Member := None;
  Event_Members := [None; Some "bob"];
  Event_User := Some alice;
  Event_UserID := "alice";
  Event_OwnUser := None;
  Event_WatcherCount := 7;
  Event_ExtraData := <["zeta" := JNumber (Integer 3)]> {["alpha" := JNull]};
  Event_CreatedAt := "2020-01-01T00:00:00Z";
|}.

Definition custom_event : UserCustomEvent := {|
  UserCustomEvent_Type := "friendship_request";
  UserCustomEvent_ExtraData := {["text" := JString "hi"]};
  UserCustomEvent_CreatedAt := Time_zero;
|}.

(** A document in which known fields are sent with their empty value. *)
Definition empty_fields_document : data :=
  Some (JObject [("cid", JString ""); ("type", JString "custom");
                 ("watcher_count", JNumber (Integer 0)); ("user", JNull);
                 ("color", JString "red")]).

(** Type "message.new" and nothing else but one extra entry. *)
Definition event_with_extra (key : string) (v : json) : Event :=
  Event_set_ExtraData {[key := v]} (Event_set_Type EventMessageNew Event_zero).

(** Type "message.new" and a CID. *)
Definition event_with_CID (cid : string) : Event := {|
  Event_CID := cid;
  Event_Type := EventMessageNew;
  Event_Message := None;
  Event_Reaction := None;
  Event_Channel := None;
  Event_Member := None;
  Event_Members := [];
  Event_User := None;
  Event_UserID := "";
  Event_OwnUser := None;
  Event_WatcherCount := 0;
  Event_ExtraData := ∅;
  Event_CreatedAt := Time_zero;
|}.
End Sample.

(** * Properties *)

(** ** The generic decoder *)

Lemma json_ind (P : json → Prop) :
  P JNull →
  (∀ b, P (JBool b)) →
  (∀ n, P (JNumber n)) →
  (∀ s, P (JString s)) →
  (∀ l, Forall P l → P (JArray l)) →
  (∀ ms, Forall (λ kv, P kv.2) ms → P (JObject ms)) →
  ∀ j, P j.
Proof.
  intros Hnull Hbool Hnum Hstr Harr Hobj.
  fix IH 1. intros [| b | n | s | l | ms].
  - exact Hnull.
  - apply Hbool.
  - apply Hnum.
  - apply Hstr.
  - apply Harr. induction l as [| j l IHl]; constructor; [apply IH | exact IHl].
  - apply Hobj.
    induction ms as [| [k j] ms IHms]; constructor; [apply IH | exact IHms].
Qed.

Lemma interface_of_generic_ok j : generic_ok j = true → interface_of j = j.
Proof.
  induction j as [| b | n | s | l IHl | ms IHms] using json_ind;
    simpl; intros Hok; auto.
  - by rewrite Hok.
  - f_equal. induction IHl as [| j l Hj _ IHl]; simpl in *; [done |].
    apply andb_true_iff in Hok as [Hok1 Hok2].
    rewrite Hj, IHl by done. done.
  - f_equal. induction IHms as [| [k j] ms Hj _ IHms]; simpl in *; [done |].
    apply andb_true_iff in Hok as [Hok1 Hok2].
    rewrite Hj, IHms by done. done.
Qed.

Lemma store_members_app ms1 ms2 m :
  store_members (ms1 ++ ms2) m = store_members ms2 (store_members ms1 m).
Proof. apply foldl_app. Qed.

Lemma store_members_cons k v ms m :
  store_members ((k, v) :: ms) m = store_members ms (<[k := interface_of v]> m).
Proof. done. Qed.

(** With distinct keys the map holds exactly the members. *)
Lemma store_members_lookup ms m k :
  NoDup ms.*1 →
  store_members ms m !! k =
    match list_to_map (M := gmap string json) ms !! k with
    | Some v => Some (interface_of v)
    | None => m !! k
    end.
Proof.
  revert m. induction ms as [| [k' v'] ms IH]; intros m Hnd; [done |].
  apply NoDup_cons in Hnd as [Hk' Hnd].
  rewrite store_members_cons, IH by done. simpl.
  destruct (decide (k' = k)) as [-> | Hne].
  - rewrite lookup_insert_eq.
    rewrite (not_elem_of_list_to_map_1 _ k) by done.
    by rewrite lookup_insert_eq.
  - rewrite !lookup_insert_ne by done. done.
Qed.

(** Deleting a key afterwards forgets every member stored under it. *)
Lemma store_members_delete k ms m1 m2 :
  delete k m1 = delete k m2 →
  delete k (store_members ms m1) = delete k (store_members ms m2).
Proof.
  revert m1 m2. induction ms as [| [k' v'] ms IH]; intros m1 m2 Hm; [done |].
  rewrite !store_members_cons. apply IH.
  destruct (decide (k = k')) as [<- | Hne].
  - by rewrite !delete_insert_eq.
  - by rewrite !delete_insert_ne, Hm by done.
Qed.

Lemma lookup_removeFromMap m names k :
  removeFromMap m names !! k = if decide (k ∈ names) then None else m !! k.
Proof.
  unfold removeFromMap.
  induction names as [| n names IH]; [done |].
  change (foldr delete m (n :: names)) with (delete n (foldr delete m names)).
  destruct (decide (n = k)) as [-> | Hne].
  - rewrite lookup_delete_eq.
    destruct (decide (k ∈ k :: names)) as [| Hnin]; [done |].
    exfalso. apply Hnin, list_elem_of_here.
  - rewrite lookup_delete_ne, IH by done.
    destruct (decide (k ∈ names)) as [Hin | Hnin],
      (decide (k ∈ n :: names)) as [Hin' | Hnin']; try done.
    + exfalso. by apply Hnin', list_elem_of_further.
    + exfalso. apply elem_of_cons in Hin' as [-> | Hin']; done.
Qed.

Lemma removeFromMap_delete k m names :
  k ∈ names → removeFromMap m names = removeFromMap (delete k m) names.
Proof.
  intros Hin. apply map_eq. intros k'. rewrite !lookup_removeFromMap.
  destruct (decide (k' ∈ names)) as [| Hnin]; [done |].
  rewrite lookup_delete_ne; [done |]. by intros ->.
Qed.

Lemma sorted_members_elem_of m k v :
  (k, v) ∈ sorted_members m ↔ m !! k = Some v.
Proof.
  unfold sorted_members. rewrite merge_sort_Permutation.
  apply elem_of_map_to_list.
Qed.

Lemma sorted_members_NoDup m : NoDup (sorted_members m).*1.
Proof.
  unfold sorted_members. rewrite merge_sort_Permutation.
  apply NoDup_fst_map_to_list.
Qed.

Lemma list_to_map_sorted_members m :
  list_to_map (sorted_members m) = m.
Proof.
  apply map_eq. intros k. apply option_eq. intros v.
  rewrite <- elem_of_list_to_map by apply sorted_members_NoDup.
  apply sorted_members_elem_of.
Qed.

(** ** The struct decoder *)

Section StructFacts.
Context {S F : Type} `{EqDecision F}.
Variable fields : list F.
Variable name : F → string.
Variable store : F → json → S → result S.
Variable emit : F → S → option json.

#[local] Abbreviation field_of := (lookup_field fields name).
#[local] Abbreviation decode := (decode_object fields name store).

Lemma lookup_field_Some k f :
  field_of k = Some f → f ∈ fields ∧ foldName (name f) = foldName k.
Proof.
  unfold lookup_field.
  destruct (find _ fields) as [f' |] eqn:Hexact.
  - intros [= ->]. apply find_some in Hexact as [Hin Heq].
    apply bool_decide_eq_true in Heq. split; [by apply list_elem_of_In |].
    by rewrite Heq.
  - intros Hfold. apply find_some in Hfold as [Hin Heq].
    apply bool_decide_eq_true in Heq. split; [by apply list_elem_of_In | done].
Qed.

Lemma find_name f :
  NoDup (name <$> fields) → f ∈ fields →
  find (λ f', bool_decide (name f' = name f)) fields = Some f.
Proof.
  induction fields as [| f0 fs IH]; intros Hnd Hin.
  - by apply elem_of_nil in Hin.
  - rewrite fmap_cons in Hnd. apply NoDup_cons in Hnd as [Hf0 Hnd].
    simpl. case_bool_decide as Heq.
    + apply elem_of_cons in Hin as [-> | Hin]; [done |].
      exfalso. apply Hf0. rewrite Heq. by apply list_elem_of_fmap_2.
    + apply elem_of_cons in Hin as [-> | Hin]; [done |]. by apply IH.
Qed.

(** A wire name leads to its own field. *)
Lemma lookup_field_name f :
  NoDup (name <$> fields) → f ∈ fields → field_of (name f) = Some f.
Proof.
  intros Hnd Hin. unfold lookup_field. by rewrite find_name.
Qed.

Lemma decode_object_app ms1 ms2 s :
  decode (ms1 ++ ms2) s = s' ← decode ms1 s; decode ms2 s'.
Proof.
  revert s. induction ms1 as [| [k v] ms1 IH]; intros s; [done |].
  simpl. destruct (field_of k) as [f |]; [| apply IH].
  destruct (store f v s) as [s' | err]; [apply IH | done].
Qed.

(** *** Whether the decoding succeeds depends on the members alone *)

Variable accepts : F → json → bool.
Hypothesis store_accepts : ∀ f j s, is_Ok (store f j s) = accepts f j.

Lemma decode_object_is_Ok ms s :
  is_Ok (decode ms s) = forallb (member_ok fields name accepts) ms.
Proof.
  revert s. induction ms as [| [k v] ms IH]; intros s; [done |].
  simpl. unfold member_ok at 1. simpl.
  destruct (field_of k) as [f |]; [| apply IH].
  rewrite <- (store_accepts f v s).
  destruct (store f v s) as [s' | err]; [apply IH | done].
Qed.

(** *** Decoding what was emitted *)

Variable agree : F → S → S → Prop.
Hypothesis agree_trans : ∀ f s1 s2 s3, agree f s1 s2 → agree f s2 s3 → agree f s1 s3.

Variables zero K : S.
Hypothesis names_NoDup : NoDup (name <$> fields).
Hypothesis store_emit : ∀ f j s,
  emit f K = Some j →
  ∃ s', store f j s = Ok s' ∧ agree f s' K ∧ ∀ g, g ≠ f → agree g s' s.
Hypothesis omitted_zero : ∀ f, emit f K = None → agree f zero K.

(** Every member is either what a field of K emits or matches no field;
    then, in whatever order the members come, each field ends up as in K
    once its member has been stored. *)
Lemma decode_object_emitted ms s0 :
  (∀ k v, (k, v) ∈ ms →
     (∃ f, f ∈ fields ∧ k = name f ∧ emit f K = Some v) ∨ field_of k = None) →
  (∀ f, f ∈ fields →
     agree f s0 K ∨ agree f s0 zero ∧ emit f K = None
     ∨ ∃ j, emit f K = Some j ∧ (name f, j) ∈ ms) →
  ∃ s, decode ms s0 = Ok s ∧ ∀ f, f ∈ fields → agree f s K.
Proof.
  revert s0. induction ms as [| [k v] ms IH]; intros s0 Hms Hinv.
  - exists s0. split; [done |]. intros f Hf.
    destruct (Hinv f Hf) as [Hag | [[Hag Hnone] | (j & _ & Hin)]].
    + done.
    + eapply agree_trans; [exact Hag | by apply omitted_zero].
    + by apply elem_of_nil in Hin.
  - simpl. destruct (Hms k v) as [(f & Hf & -> & Hemit) | Hnone];
      [apply list_elem_of_here | |].
    + rewrite lookup_field_name by done.
      destruct (store_emit f v s0 Hemit) as (s' & -> & Hag & Hoth). simpl.
      apply IH.
      * intros k' v' Hin. apply Hms. by apply list_elem_of_further.
      * intros g Hg. destruct (decide (g = f)) as [-> | Hne]; [by left |].
        destruct (Hinv g Hg) as [Hag' | [[Hag' Hn] | (j & Hj & Hin)]].
        -- left. eapply agree_trans; [by apply Hoth | done].
        -- right; left. split; [| done].
           eapply agree_trans; [by apply Hoth | done].
        -- right; right. exists j. split; [done |].
           apply elem_of_cons in Hin as [[= Hname _] | Hin]; [| done].
           exfalso. apply Hne.
           pose proof (find_name g names_NoDup Hg) as Hfind.
           rewrite Hname, find_name in Hfind by done. by injection Hfind.
    + rewrite Hnone. apply IH.
      * intros k' v' Hin. apply Hms. by apply list_elem_of_further.
      * intros g Hg.
        destruct (Hinv g Hg) as [Hag' | [[Hag' Hn] | (j & Hj & Hin)]];
          [by left | by right; left |].
        right; right. exists j. split; [done |].
        apply elem_of_cons in Hin as [[= Hname _] | Hin]; [| done].
        exfalso. rewrite <- Hname, lookup_field_name in Hnone by done. done.
Qed.

(** *** Decoding an encoded document *)

#[local] Abbreviation known := (json_Marshal_struct fields name emit K).

Lemma elem_of_Marshal_struct s k v :
  (k, v) ∈ json_Marshal_struct fields name emit s
  ↔ ∃ f, f ∈ fields ∧ k = name f ∧ emit f s = Some v.
Proof.
  unfold json_Marshal_struct. rewrite list_elem_of_omap. split.
  - intros (f & Hf & Heq). exists f. destruct (emit f s); naive_solver.
  - intros (f & Hf & -> & Heq). exists f. by rewrite Heq.
Qed.

Lemma Marshal_struct_keys s k :
  k ∈ (json_Marshal_struct fields name emit s).*1 → k ∈ name <$> fields.
Proof.
  intros ([k' v] & -> & Hin)%list_elem_of_fmap.
  apply elem_of_Marshal_struct in Hin as (f & Hf & -> & _).
  simpl. by apply list_elem_of_fmap_2.
Qed.

Lemma Marshal_struct_NoDup s :
  NoDup (json_Marshal_struct fields name emit s).*1.
Proof.
  clear store_emit omitted_zero. revert names_NoDup.
  unfold json_Marshal_struct.
  induction fields as [| f fs IH]; intros Hnd; [constructor |].
  rewrite fmap_cons in Hnd. apply NoDup_cons in Hnd as [Hf Hnd].
  simpl. destruct (emit f s) as [j |]; simpl; [| by apply IH].
  apply NoDup_cons. split; [| by apply IH].
  intros ([k' v] & Hk & Hin)%list_elem_of_fmap. simpl in Hk. subst k'.
  apply list_elem_of_omap in Hin as (g & Hg & Heq).
  destruct (emit g s); simplify_eq/=.
  apply Hf.
  match goal with Hn : name g = name f |- _ => rewrite <- Hn end.
  by apply list_elem_of_fmap_2.
Qed.

Lemma lookup_known_emit f j :
  f ∈ fields → emit f K = Some j → list_to_map (M := gmap string json) known !! name f = Some j.
Proof.
  intros Hf Hj. apply elem_of_list_to_map_1; [apply Marshal_struct_NoDup |].
  apply elem_of_Marshal_struct. eauto.
Qed.

Lemma lookup_known_Some k v :
  list_to_map (M := gmap string json) known !! k = Some v →
  ∃ f, f ∈ fields ∧ k = name f ∧ emit f K = Some v.
Proof. intros Hin%elem_of_list_to_map_2. by apply elem_of_Marshal_struct. Qed.

(** A field that is emitted has its value in the merged document, whatever
    the extra map holds under its name. *)
Lemma lookup_merged_emit m f j :
  f ∈ fields → emit f K = Some j → merged m known !! name f = Some j.
Proof.
  intros Hf Hj. unfold merged. apply lookup_union_Some_l.
  by apply lookup_known_emit.
Qed.

Hypothesis agree_refl : ∀ f s, agree f s s.
Hypothesis emit_generic : ∀ f j, emit f K = Some j → generic_ok j = true.

Variable E : gmap string json.
Hypothesis E_unmatched : ∀ k, is_Some (E !! k) → field_of k = None.
Hypothesis E_generic : map_Forall (λ _ v, generic_ok v = true) E.

Lemma decode_object_merged :
  ∃ s, decode (sorted_members (merged E known)) zero = Ok s
       ∧ ∀ f, f ∈ fields → agree f s K.
Proof.
  apply decode_object_emitted.
  - intros k v Hin%sorted_members_elem_of.
    apply lookup_union_Some_raw in Hin as [Hin | [_ Hin]].
    + left. by apply lookup_known_Some.
    + right. apply E_unmatched. by exists v.
  - intros f Hf. right. destruct (emit f K) as [j |] eqn:Hj.
    + right. exists j. split; [done |].
      apply sorted_members_elem_of. by apply lookup_merged_emit.
    + left. split; [apply agree_refl | done].
Qed.

Lemma merged_generic : map_Forall (λ _ v, generic_ok v = true) (merged E known).
Proof.
  intros k v Hin. apply lookup_union_Some_raw in Hin as [Hin | [_ Hin]].
  - apply lookup_known_Some in Hin as (f & _ & _ & Hj). by eapply emit_generic.
  - by eapply E_generic.
Qed.

Lemma removeFromMap_merged :
  removeFromMap (merged E known) (name <$> fields) = E.
Proof.
  apply map_eq. intros k. rewrite lookup_removeFromMap.
  destruct (decide (k ∈ name <$> fields)) as [Hin | Hnin].
  - apply list_elem_of_fmap in Hin as (f & -> & Hf).
    destruct (E !! name f) as [v |] eqn:Hv; [| done].
    pose proof (E_unmatched (name f) (ex_intro _ v Hv)) as Hnone.
    by rewrite lookup_field_name in Hnone.
  - unfold merged. apply lookup_union_r.
    apply not_elem_of_list_to_map_1. intros Hk. by apply Hnin, (Marshal_struct_keys K).
Qed.
End StructFacts.

(** A document written by json.Marshal from a map of generic values reads
    back as that map. *)
Lemma json_Unmarshal_map_sorted D :
  map_Forall (λ _ v, generic_ok v = true) D →
  json_Unmarshal_map (Some (JObject (sorted_members D))) ∅ = (D, None).
Proof.
  intros HD. simpl. f_equal.
  - apply map_eq. intros k.
    rewrite store_members_lookup by apply sorted_members_NoDup.
    rewrite list_to_map_sorted_members, lookup_empty.
    destruct (D !! k) as [v |] eqn:Hv; [| done].
    by rewrite interface_of_generic_ok by (by eapply HD).
  - rewrite (proj2 (forallb_forall _ _)); [done |].
    intros [k v] Hin%list_elem_of_In%sorted_members_elem_of. by eapply HD.
Qed.

(** ** The fields of Event and UserCustomEvent *)

Lemma Event_names_NoDup : NoDup (Event_name <$> Event_fields).
Proof. apply (bool_decide_unpack _). by vm_compute. Qed.

Lemma UserCustomEvent_names_NoDup :
  NoDup (UserCustomEvent_name <$> UserCustomEvent_fields).
Proof. apply (bool_decide_unpack _). by vm_compute. Qed.

Lemma Event_fields_all f : f ∈ Event_fields.
Proof. destruct f; unfold Event_fields; set_solver. Qed.

Lemma UserCustomEvent_fields_all f : f ∈ UserCustomEvent_fields.
Proof. destruct f; unfold UserCustomEvent_fields; set_solver. Qed.

Section FieldFacts.
Context `{Codecs}.

Lemma store_pointer_Marshal {T} `{JSONCodec T} (x : T) :
  lawful x → store_pointer (MarshalJSON x) = Ok (Some x).
Proof.
  intros (Hum & Hnn & _). unfold store_pointer.
  destruct (MarshalJSON x); try done; by rewrite Hum.
Qed.

Lemma store_value_Marshal {T} `{JSONCodec T} (x cur : T) :
  lawful x → store_value (MarshalJSON x) cur = Ok x.
Proof.
  intros (Hum & Hnn & _). unfold store_value.
  destruct (MarshalJSON x); try done; by rewrite Hum.
Qed.

Lemma store_pointer_marshal_pointer {T} `{JSONCodec T} (p : option T) :
  lawful_pointer p → store_pointer (marshal_pointer p) = Ok p.
Proof. destruct p as [x |]; [apply store_pointer_Marshal | done]. Qed.

Lemma store_slice_Marshal {T} `{JSONCodec T} (l : list (option T)) :
  Forall lawful_pointer l → store_slice (JArray (map marshal_pointer l)) = Ok l.
Proof.
  simpl. induction 1 as [| p l Hp Hl IH]; [done |].
  simpl. rewrite store_pointer_marshal_pointer by done. simpl.
  unfold mbind, result_bind in *. simpl in IH. by rewrite IH.
Qed.

Lemma generic_ok_marshal_pointer {T} `{JSONCodec T} (p : option T) :
  lawful_pointer p → generic_ok (marshal_pointer p) = true.
Proof. destruct p; [by intros (_ & _ & ?) | done]. Qed.

Lemma generic_ok_Marshal {T} `{JSONCodec T} (x : T) :
  lawful x → generic_ok (MarshalJSON x) = true.
Proof. by intros (_ & _ & ?). Qed.

(** What a field emits is a value the generic decoder takes as it is. *)
Lemma Event_emit_generic f e j :
  Event_fields_portable e → Event_emit f e = Some j → generic_ok j = true.
Proof.
  intros (_ & _ & _ & Hwc & Hm & Hr & Hc & Hcm & Hms & Hu & Ho & Ht).
  destruct f; simpl;
    unfold emit_string, emit_pointer, emit_slice, emit_int, emit_value;
    intros Hj; repeat case_match; simplify_eq; simpl;
    try done; try (by apply generic_ok_Marshal);
    try match goal with
        | Hp : lawful_pointer ?p, Hq : ?p = Some ?x |- _ =>
            rewrite Hq in Hp; by apply generic_ok_Marshal
        end.
  - apply forallb_forall. intros j [p [<- Hin]]%in_map_iff.
    apply generic_ok_marshal_pointer.
    by apply (proj1 (List.Forall_forall _ _) Hms).
  - apply bool_decide_eq_true. unfold int_range, int_min, int_max in Hwc.
    unfold float64_overflow.
    assert (2 ^ 63 < 2 ^ 1024 - 2 ^ 970) by (by vm_compute). lia.
Qed.

Lemma UserCustomEvent_emit_generic f e j :
  UserCustomEvent_fields_portable e →
  UserCustomEvent_emit f e = Some j → generic_ok j = true.
Proof.
  intros (_ & Ht). destruct f; simpl; unfold emit_string, emit_value;
    intros Hj; repeat case_match; simplify_eq; simpl;
    try done; by apply generic_ok_Marshal.
Qed.

Lemma Event_store_accepts f j e :
  is_Ok (Event_store f j e) = Event_accepts f j.
Proof.
  unfold Event_accepts, Event_zero. destruct e, f; simpl;
    unfold store_string, store_int, store_pointer, store_slice, store_value;
    destruct j; simpl; try done;
    repeat (case_match; simpl; try done).
  by destruct (mapM store_pointer l).
Qed.

Lemma UserCustomEvent_store_accepts f j e :
  is_Ok (UserCustomEvent_store f j e) = UserCustomEvent_accepts f j.
Proof.
  unfold UserCustomEvent_accepts, UserCustomEvent_zero. destruct e, f; simpl;
    unfold store_string, store_value;
    destruct j; simpl; try done;
    repeat (case_match; simpl; try done).
Qed.

Lemma Event_agree_trans f e1 e2 e3 :
  Event_agree f e1 e2 → Event_agree f e2 e3 → Event_agree f e1 e3.
Proof. destruct f; simpl; congruence. Qed.

Lemma UserCustomEvent_agree_trans f e1 e2 e3 :
  UserCustomEvent_agree f e1 e2 → UserCustomEvent_agree f e2 e3 →
  UserCustomEvent_agree f e1 e3.
Proof. destruct f; simpl; congruence. Qed.

(** Storing what a field of K emits puts the value of K into that field
    and leaves the other fields alone. *)
Lemma Event_store_emit K f j e :
  Event_fields_portable K →
  Event_emit f K = Some j →
  ∃ e', Event_store f j e = Ok e' ∧ Event_agree f e' K
        ∧ ∀ g, g ≠ f → Event_agree g e' e.
Proof.
  intros (Hcid & Hty & Huid & Hwc & Hm & Hr & Hc & Hcm & Hms & Hu & Ho & Ht).
  unfold utf8_valid in *.
  destruct e, f; simpl;
    unfold emit_string, emit_pointer, emit_slice, emit_int, emit_value;
    intros Hj; repeat case_match; simplify_eq;
    repeat match goal with
           | Hp : lawful_pointer ?p, Hq : ?p = Some ?x |- _ =>
               rewrite Hq in Hp; simpl in Hp
           end;
    rewrite ?store_pointer_Marshal, ?store_value_Marshal, ?store_slice_Marshal
      by done;
    simpl; try rewrite bool_decide_eq_true_2 by done;
    (eexists; split; [reflexivity |]; split; [done |]; by intros []).
Qed.

Lemma UserCustomEvent_store_emit K f j e :
  UserCustomEvent_fields_portable K →
  UserCustomEvent_emit f K = Some j →
  ∃ e', UserCustomEvent_store f j e = Ok e' ∧ UserCustomEvent_agree f e' K
        ∧ ∀ g, g ≠ f → UserCustomEvent_agree g e' e.
Proof.
  intros (Hty & Ht). unfold utf8_valid in *.
  destruct e, f; simpl; unfold emit_string, emit_value;
    intros Hj; repeat case_match; simplify_eq;
    rewrite ?store_value_Marshal by done; simpl;
    (eexists; split; [reflexivity |]; split; [done |]; by intros []).
Qed.

Lemma Event_omitted_zero K f :
  Event_emit f K = None → Event_agree f Event_zero K.
Proof.
  destruct f; simpl;
    unfold emit_string, emit_pointer, emit_slice, emit_int, emit_value;
    intros Hj; repeat case_match; simplify_eq; simpl in *;
    try done;
    match goal with
    | Hb : bool_decide _ = true |- _ => by apply bool_decide_eq_true in Hb
    end.
Qed.

Lemma UserCustomEvent_omitted_zero K f :
  UserCustomEvent_emit f K = None → UserCustomEvent_agree f UserCustomEvent_zero K.
Proof.
  destruct f; simpl; unfold emit_string, emit_value;
    intros Hj; repeat case_match; simplify_eq; done.
Qed.
End FieldFacts.

(** ** Encoding and decoding an event *)

Section CodecFacts.
Context `{Codecs}.

Lemma Event_ext s K m :
  (∀ f, Event_agree f s K) → Event_set_ExtraData m s = Event_set_ExtraData m K.
Proof.
  intros Hag. destruct s, K; simpl.
  pose proof (Hag fCID). pose proof (Hag fType). pose proof (Hag fMessage).
  pose proof (Hag fReaction). pose proof (Hag fChannel). pose proof (Hag fMember).
  pose proof (Hag fMembers). pose proof (Hag fUser). pose proof (Hag fUserID).
  pose proof (Hag fOwnUser). pose proof (Hag fWatcherCount).
  pose proof (Hag fCreatedAt). simpl in *. by subst.
Qed.

Lemma UserCustomEvent_ext s K m :
  (∀ f, UserCustomEvent_agree f s K) →
  UserCustomEvent_set_ExtraData m s = UserCustomEvent_set_ExtraData m K.
Proof.
  intros Hag. destruct s, K; simpl.
  pose proof (Hag ufType). pose proof (Hag ufCreatedAt). simpl in *. by subst.
Qed.

Lemma Event_set_ExtraData_id e : Event_set_ExtraData (Event_ExtraData e) e = e.
Proof. by destruct e. Qed.

Lemma UserCustomEvent_set_ExtraData_id e :
  UserCustomEvent_set_ExtraData (UserCustomEvent_ExtraData e) e = e.
Proof. by destruct e. Qed.

Lemma Event_store_ExtraData f j e e' :
  Event_store f j e = Ok e' → Event_ExtraData e' = Event_ExtraData e.
Proof.
  destruct e, f; simpl; intros He;
    match type of He with
    | mbind _ ?r = _ => destruct r; simplify_eq/=; done
    end.
Qed.

Lemma UserCustomEvent_store_ExtraData f j e e' :
  UserCustomEvent_store f j e = Ok e' →
  UserCustomEvent_ExtraData e' = UserCustomEvent_ExtraData e.
Proof.
  destruct e, f; simpl; intros He;
    match type of He with
    | mbind _ ?r = _ => destruct r; simplify_eq/=; done
    end.
Qed.

(** The typed decoding never touches ExtraData (its tag is "-"). *)
Lemma Event_decode_ExtraData ms e e' :
  decode_object Event_fields Event_name Event_store ms e = Ok e' →
  Event_ExtraData e' = Event_ExtraData e.
Proof.
  revert e. induction ms as [| [k v] ms IH]; intros e; simpl.
  - by intros [= ->].
  - destruct (lookup_field _ _ k) as [f |]; [| apply IH].
    destruct (Event_store f v e) as [e1 |] eqn:He1; [| done]. simpl.
    intros He'. rewrite (IH _ He'). by eapply Event_store_ExtraData.
Qed.

Lemma UserCustomEvent_decode_ExtraData ms e e' :
  decode_object UserCustomEvent_fields UserCustomEvent_name
    UserCustomEvent_store ms e = Ok e' →
  UserCustomEvent_ExtraData e' = UserCustomEvent_ExtraData e.
Proof.
  revert e. induction ms as [| [k v] ms IH]; intros e; simpl.
  - by intros [= ->].
  - destruct (lookup_field _ _ k) as [f |]; [| apply IH].
    destruct (UserCustomEvent_store f v e) as [e1 |] eqn:He1; [| done]. simpl.
    intros He'. rewrite (IH _ He'). by eapply UserCustomEvent_store_ExtraData.
Qed.

(** Decoding the encoding of K with an extra map E none of whose keys is
    stored into a field. *)
Lemma Event_decode_encode K E e0 :
  Event_fields_portable K →
  map_Forall (λ k v, Event_field_of k = None ∧ generic_ok v = true) E →
  ∃ d, Event_MarshalJSON (Event_set_ExtraData E K) = Ok d
       ∧ Event_UnmarshalJSON e0 d = (Event_set_ExtraData E K, None).
Proof.
  intros Hwc HE. eexists. split; [reflexivity |].
  assert (Hknown : json_Marshal_struct Event_fields Event_name Event_emit
                     (Event_set_ExtraData E K)
                   = json_Marshal_struct Event_fields Event_name Event_emit K)
    by (by destruct K).
  assert (HEx : Event_ExtraData (Event_set_ExtraData E K) = E) by (by destruct K).
  rewrite Hknown, HEx. unfold Event_UnmarshalJSON, json_Unmarshal_eventForJSON.
  cbn [json_Unmarshal_struct].
  destruct (decode_object_merged Event_fields Event_name Event_store Event_emit
              Event_agree Event_agree_trans Event_zero K Event_names_NoDup
              (λ f j s, Event_store_emit K f j s Hwc) (Event_omitted_zero K)
              ltac:(by intros []) E) as (s & Hs & Hag).
  { intros k [v Hv]. by destruct (HE k v Hv). }
  rewrite Hs.
  rewrite (Event_decode_ExtraData _ _ _ Hs).
  change (Event_ExtraData Event_zero) with (∅ : gmap string json).
  rewrite json_Unmarshal_map_sorted.
  2:{ apply merged_generic.
      - intros f j. by apply Event_emit_generic.
      - intros k v Hv. by destruct (HE k v Hv). }
  rewrite (removeFromMap_merged Event_fields Event_name Event_emit K
             Event_names_NoDup).
  2:{ intros k [v Hv]. by destruct (HE k v Hv). }
  f_equal. apply Event_ext. intros f. apply Hag, Event_fields_all.
Qed.

Lemma UserCustomEvent_decode_encode K E e0 :
  UserCustomEvent_fields_portable K →
  map_Forall (λ k v, UserCustomEvent_field_of k = None ∧ generic_ok v = true) E →
  ∃ d, UserCustomEvent_MarshalJSON (UserCustomEvent_set_ExtraData E K) = Ok d
       ∧ UserCustomEvent_UnmarshalJSON e0 d
         = (UserCustomEvent_set_ExtraData E K, None).
Proof.
  intros Hwc HE. eexists. split; [reflexivity |].
  assert (Hknown : json_Marshal_struct UserCustomEvent_fields UserCustomEvent_name
                     UserCustomEvent_emit (UserCustomEvent_set_ExtraData E K)
                   = json_Marshal_struct UserCustomEvent_fields
                       UserCustomEvent_name UserCustomEvent_emit K)
    by (by destruct K).
  assert (HEx : UserCustomEvent_ExtraData (UserCustomEvent_set_ExtraData E K) = E)
    by (by destruct K).
  rewrite Hknown, HEx.
  unfold UserCustomEvent_UnmarshalJSON, json_Unmarshal_userCustomEventForJSON.
  cbn [json_Unmarshal_struct].
  destruct (decode_object_merged UserCustomEvent_fields UserCustomEvent_name
              UserCustomEvent_store UserCustomEvent_emit
              UserCustomEvent_agree UserCustomEvent_agree_trans
              UserCustomEvent_zero K UserCustomEvent_names_NoDup
              (λ f j s, UserCustomEvent_store_emit K f j s Hwc)
              (UserCustomEvent_omitted_zero K)
              ltac:(by intros []) E) as (s & Hs & Hag).
  { intros k [v Hv]. by destruct (HE k v Hv). }
  rewrite Hs.
  rewrite (UserCustomEvent_decode_ExtraData _ _ _ Hs).
  change (UserCustomEvent_ExtraData UserCustomEvent_zero)
    with (∅ : gmap string json).
  rewrite json_Unmarshal_map_sorted.
  2:{ apply merged_generic.
      - intros f j. by apply UserCustomEvent_emit_generic.
      - intros k v Hv. by destruct (HE k v Hv). }
  rewrite (removeFromMap_merged UserCustomEvent_fields UserCustomEvent_name
             UserCustomEvent_emit K UserCustomEvent_names_NoDup).
  2:{ intros k [v Hv]. by destruct (HE k v Hv). }
  f_equal. apply UserCustomEvent_ext. intros f.
  apply Hag, UserCustomEvent_fields_all.
Qed.
End CodecFacts.

(** * The claims *)

(** The closed examples below are about the sample package. *)
#[local] Existing Instance Sample.package.
#[local] Existing Instance Sample.codecs.

(** ** C1: round trip *)

(** C1, as amended.  Take an Event or a UserCustomEvent whose extra keys are
    stored into no known field by the decoder, that is, differ from every
    wire name even up to case, and whose values are such as JSON carries:
    the string fields and the keys and strings of the extra map are valid
    UTF-8, the watcher count is a Go int, the numbers of the extra map fit
    a float64, and each embedded value (message, reaction, channel, member,
    members, users, timestamp) is one its own MarshalJSON and UnmarshalJSON
    round-trip.  Encoding it succeeds, and decoding the document gives back
    exactly the known fields and exactly the extra map. *)
Theorem roundtrip_unmatched_extra `{Codecs} :
  (∀ e e0 : Event,
     Event_fields_portable e →
     map_Forall (λ k v, Event_field_of k = None ∧ extra_portable k v)
       (Event_ExtraData e) →
     ∃ d, Event_MarshalJSON e = Ok d ∧ Event_UnmarshalJSON e0 d = (e, None))
  ∧ (∀ e e0 : UserCustomEvent,
       UserCustomEvent_fields_portable e →
       map_Forall (λ k v, UserCustomEvent_field_of k = None ∧ extra_portable k v)
         (UserCustomEvent_ExtraData e) →
       ∃ d, UserCustomEvent_MarshalJSON e = Ok d
            ∧ UserCustomEvent_UnmarshalJSON e0 d = (e, None)).
Proof.
  split.
  - intros e e0 HK HE.
    rewrite <- (Event_set_ExtraData_id e). apply Event_decode_encode; [done |].
    eapply map_Forall_impl; [exact HE |]. by intros k v (? & _ & _ & ?).
  - intros e e0 HK HE.
    rewrite <- (UserCustomEvent_set_ExtraData_id e).
    apply UserCustomEvent_decode_encode; [done |].
    eapply map_Forall_impl; [exact HE |]. by intros k v (? & _ & _ & ?).
Qed.

Lemma roundtrip_unmatched_extra_witness :
  (∃ d, Event_MarshalJSON Sample.event = Ok d
        ∧ Event_UnmarshalJSON Event_zero d = (Sample.event, None))
  ∧ (∃ d, UserCustomEvent_MarshalJSON Sample.custom_event = Ok d
          ∧ UserCustomEvent_UnmarshalJSON UserCustomEvent_zero d
            = (Sample.custom_event, None)).
Proof.
  split.
  - apply (proj1 roundtrip_unmatched_extra).
    + unfold Event_fields_portable, utf8_valid, lawful_pointer, lawful.
      repeat split; try done; try (by vm_compute).
      repeat constructor.
    + apply map_Forall_to_list. vm_compute map_to_list.
      repeat constructor.
  - apply (proj2 roundtrip_unmatched_extra).
    + by repeat split.
    + apply map_Forall_to_list. vm_compute map_to_list.
      repeat constructor.
Defined.

(** C1 as stated fails.  The key "CID" is not a wire name, yet the decoder
    stores it into the field tagged "cid": the event comes back with CID "x"
    instead of "". *)
Lemma roundtrip_case_variant_key :
  let e := Sample.event_with_extra "CID" (JString "x") in
  (∀ k, is_Some (Event_ExtraData e !! k) → k ∉ Event_names)
  ∧ Event_CID e = ""
  ∧ ∃ d e', Event_MarshalJSON e = Ok d
            ∧ Event_UnmarshalJSON Event_zero d = (e', None)
            ∧ Event_CID e' = "x"
            ∧ Event_UnmarshalJSON Event_zero d ≠ (e, None).
Proof.
  split; [| split; [done |]].
  - intros k [v Hv] Hin. apply list_elem_of_In in Hin. vm_compute in Hin.
    repeat (destruct Hin as [<- | Hin]; [by vm_compute in Hv |]). done.
  - eexists _, _. split; [reflexivity |]. split; [by vm_compute |].
    split; [done |]. intros Heq.
    apply (f_equal (λ r, Event_CID r.1)) in Heq. by vm_compute in Heq.
Qed.

(** Nor does a string field that is not valid UTF-8 come back: the byte FF
    in CID is written as U+FFFD. *)
Lemma roundtrip_coerces_invalid_utf8 :
  let e := Sample.event_with_CID (String (ascii_of_N 255) "") in
  ∃ d e', Event_MarshalJSON e = Ok d
          ∧ Event_UnmarshalJSON Event_zero d = (e', None)
          ∧ Event_CID e' = RuneError
          ∧ Event_UnmarshalJSON Event_zero d ≠ (e, None).
Proof.
  eexists _, _. split; [reflexivity |]. split; [by vm_compute |].
  split; [done |]. intros Heq.
  apply (f_equal (λ r, Event_CID r.1)) in Heq. by vm_compute in Heq.
Qed.

(** ** C2: known fields and same-named extra entries *)

Lemma Event_ExtraData_set `{Codecs} m (K : Event) :
  Event_ExtraData (Event_set_ExtraData m K) = m.
Proof. by destruct K. Qed.

Lemma Event_known_set `{Codecs} m (K : Event) :
  json_Marshal_struct Event_fields Event_name Event_emit (Event_set_ExtraData m K)
  = json_Marshal_struct Event_fields Event_name Event_emit K.
Proof. by destruct K. Qed.

Lemma merged_shadowed k v j m known :
  list_to_map (M := gmap string json) known !! k = Some j →
  merged (<[k := v]> m) known = merged m known.
Proof.
  intros Hk. apply map_eq. intros k'. unfold merged.
  rewrite !lookup_union. destruct (decide (k = k')) as [<- | Hne].
  - by rewrite Hk, lookup_insert_eq; destruct (m !! k).
  - by rewrite lookup_insert_ne.
Qed.

Lemma Event_MarshalJSON_members `{Codecs} (e : Event) :
  ∃ d, Event_MarshalJSON e = Ok d
       ∧ ∀ k v, (k, v) ∈ members_of d
                ↔ merged (Event_ExtraData e)
                    (json_Marshal_struct Event_fields Event_name Event_emit e) !! k
                  = Some v.
Proof.
  eexists. split; [reflexivity |]. intros k v. apply sorted_members_elem_of.
Qed.

Lemma UserCustomEvent_MarshalJSON_members `{Codecs} (e : UserCustomEvent) :
  ∃ d, UserCustomEvent_MarshalJSON e = Ok d
       ∧ ∀ k v, (k, v) ∈ members_of d
                ↔ merged (UserCustomEvent_ExtraData e)
                    (json_Marshal_struct UserCustomEvent_fields
                       UserCustomEvent_name UserCustomEvent_emit e) !! k
                  = Some v.
Proof.
  eexists. split; [reflexivity |]. intros k v. apply sorted_members_elem_of.
Qed.

(** What a known field emits is what the document carries under its name. *)
Lemma Event_MarshalJSON_emitted `{Codecs} (e : Event) f j :
  Event_emit f e = Some j →
  ∃ d, Event_MarshalJSON e = Ok d
       ∧ ∀ v, (Event_name f, v) ∈ members_of d ↔ v = j.
Proof.
  intros Hj. destruct (Event_MarshalJSON_members e) as (d & Hd & Hmem).
  exists d. split; [done |]. intros v. rewrite Hmem.
  rewrite (lookup_merged_emit Event_fields Event_name Event_emit e
             Event_names_NoDup _ f j (Event_fields_all f) Hj).
  split; [by intros [= ->] | by intros ->].
Qed.

Lemma UserCustomEvent_MarshalJSON_emitted `{Codecs} (e : UserCustomEvent) f j :
  UserCustomEvent_emit f e = Some j →
  ∃ d, UserCustomEvent_MarshalJSON e = Ok d
       ∧ ∀ v, (UserCustomEvent_name f, v) ∈ members_of d ↔ v = j.
Proof.
  intros Hj. destruct (UserCustomEvent_MarshalJSON_members e) as (d & Hd & Hmem).
  exists d. split; [done |]. intros v. rewrite Hmem.
  rewrite (lookup_merged_emit UserCustomEvent_fields UserCustomEvent_name
             UserCustomEvent_emit e UserCustomEvent_names_NoDup _ f j
             (UserCustomEvent_fields_all f) Hj).
  split; [by intros [= ->] | by intros ->].
Qed.

(** A known field that is omitted leaves its name to the extra map. *)
Lemma Event_MarshalJSON_omitted `{Codecs} (e : Event) f :
  Event_emit f e = None →
  ∃ d, Event_MarshalJSON e = Ok d
       ∧ ∀ v, (Event_name f, v) ∈ members_of d
              ↔ Event_ExtraData e !! Event_name f = Some v.
Proof.
  intros Hf. destruct (Event_MarshalJSON_members e) as (d & Hd & Hmem).
  exists d. split; [done |]. intros v. rewrite Hmem.
  unfold merged. rewrite lookup_union.
  destruct (list_to_map _ !! Event_name f) as [j |] eqn:Hk.
  - apply lookup_known_Some in Hk as (f' & _ & Hn & Hj).
    assert (f' = f) as -> by (by destruct f, f').
    congruence.
  - by destruct (Event_ExtraData e !! Event_name f).
Qed.

(** C2, as amended.  When a key of the extra map equals the wire name of a
    known field that the event emits (type and created_at always, an
    omitempty field when it is not empty), the encoded document carries the
    known field's value under that key and no other; when the known field
    is omitted as empty, the document carries under its name what the extra
    map has there, if anything.  No field of a UserCustomEvent is ever
    omitted.  In particular the Event with Type "message.new" and ExtraData
    {"type": "bogus"} encodes to a document whose "type" is "message.new",
    and decoding that document yields an empty extra map (the zero
    timestamp it carries being one that time.Time round-trips). *)
Theorem known_field_precedence `{Codecs} :
  (∀ (e : Event) f j,
     Event_emit f e = Some j →
     ∃ d, Event_MarshalJSON e = Ok d
          ∧ ∀ v, (Event_name f, v) ∈ members_of d ↔ v = j)
  ∧ (∀ (e : Event) f,
       Event_emit f e = None →
       ∃ d, Event_MarshalJSON e = Ok d
            ∧ ∀ v, (Event_name f, v) ∈ members_of d
                   ↔ Event_ExtraData e !! Event_name f = Some v)
  ∧ (∀ e : Event, is_Some (Event_emit fType e) ∧ is_Some (Event_emit fCreatedAt e))
  ∧ (∀ (e : UserCustomEvent) f,
       ∃ j d, UserCustomEvent_emit f e = Some j
              ∧ UserCustomEvent_MarshalJSON e = Ok d
              ∧ ∀ v, (UserCustomEvent_name f, v) ∈ members_of d ↔ v = j)
  ∧ (∀ e0 : Event,
       lawful Time_zero →
       let e := Event_set_ExtraData {["type" := JString "bogus"]}
                  (Event_set_Type EventMessageNew Event_zero) in
       ∃ d e', Event_MarshalJSON e = Ok d
               ∧ (∀ v, ("type", v) ∈ members_of d ↔ v = JString "message.new")
               ∧ Event_UnmarshalJSON e0 d = (e', None)
               ∧ Event_Type e' = "message.new"
               ∧ Event_ExtraData e' = ∅).
Proof.
  split; [| split; [| split; [| split]]].
  - intros e f j. apply Event_MarshalJSON_emitted.
  - intros e f. apply Event_MarshalJSON_omitted.
  - intros e. split; eexists; reflexivity.
  - intros e f.
    assert (∃ j, UserCustomEvent_emit f e = Some j) as [j Hj]
      by (destruct f; eexists; reflexivity).
    destruct (UserCustomEvent_MarshalJSON_emitted e f j Hj) as (d & Hd & Hmem).
    by exists j, d.
  - intros e0 Htime e.
    destruct (Event_MarshalJSON_emitted e fType (JString "message.new") eq_refl)
      as (d & Hd & Htype).
    destruct (Event_decode_encode (Event_set_Type EventMessageNew Event_zero) ∅ e0)
      as (d' & Hd' & Hdec).
    { unfold Event_fields_portable. repeat split; try done; apply Htime. }
    { apply map_Forall_empty. }
    assert (d' = d) as ->.
    { revert Hd Hd'. unfold e, Event_MarshalJSON, addToMapAndMarshal.
      rewrite !Event_ExtraData_set, !Event_known_set, <- insert_empty.
      erewrite (merged_shadowed "type"); [congruence |].
      apply lookup_known_emit with (f := fType);
        [apply Event_names_NoDup | apply Event_fields_all | done]. }
    exists d, (Event_set_ExtraData ∅ (Event_set_Type EventMessageNew Event_zero)).
    done.
Qed.

Lemma known_field_precedence_witness :
  (∃ d, Event_MarshalJSON Sample.event = Ok d
        ∧ ∀ v, ("user", v) ∈ members_of d ↔ v = JObject [("id", JString "alice")])
  ∧ (let e := Sample.event_with_extra "cid" (JString "bogus") in
     ∃ d, Event_MarshalJSON e = Ok d
          ∧ ∀ v, ("cid", v) ∈ members_of d ↔ v = JString "bogus")
  ∧ (let e := Event_set_ExtraData {["type" := JString "bogus"]}
                (Event_set_Type EventMessageNew Event_zero) in
     ∃ d e', Event_MarshalJSON e = Ok d
             ∧ (∀ v, ("type", v) ∈ members_of d ↔ v = JString "message.new")
             ∧ Event_UnmarshalJSON Event_zero d = (e', None)
             ∧ Event_Type e' = "message.new"
             ∧ Event_ExtraData e' = ∅).
Proof.
  split; [| split].
  - apply (proj1 known_field_precedence Sample.event fUser). reflexivity.
  - intros e.
    destruct (proj1 (proj2 known_field_precedence) e fCID eq_refl)
      as (d & Hd & Hmem).
    exists d. split; [done |]. intros v. rewrite Hmem.
    change (Event_name fCID) with "cid".
    replace (Event_ExtraData e !! "cid") with (Some (JString "bogus"))
      by (by vm_compute).
    split; congruence.
  - apply (proj2 (proj2 (proj2 (proj2 known_field_precedence))) Event_zero).
    by repeat split.
Defined.

(** C2 as stated fails on a known field that is omitted as empty.  CID is ""
    and the extra map has "cid": the document carries the extra value
    "bogus" under "cid", and decoding it stores "bogus" into CID. *)
Lemma omitted_field_takes_extra_value :
  let e := Sample.event_with_extra "cid" (JString "bogus") in
  Event_CID e = ""
  ∧ Event_ExtraData e !! "cid" = Some (JString "bogus")
  ∧ ∃ d e', Event_MarshalJSON e = Ok d
            ∧ (∀ v, ("cid", v) ∈ members_of d ↔ v = JString "bogus")
            ∧ Event_UnmarshalJSON Event_zero d = (e', None)
            ∧ Event_CID e' = "bogus".
Proof.
  split; [done |]. split; [by vm_compute |].
  eexists _, _. split; [reflexivity |].
  split; [| split; [by vm_compute | done]].
  intros v. vm_compute members_of. split.
  - intros Hin.
    repeat (apply elem_of_cons in Hin as [Heq | Hin]; [by simplify_eq |]).
    by apply elem_of_nil in Hin.
  - intros ->. apply list_elem_of_here.
Qed.

(** ** C3: no known key in the extra map *)

Lemma UserCustomEvent_ExtraData_set `{Codecs} m (K : UserCustomEvent) :
  UserCustomEvent_ExtraData (UserCustomEvent_set_ExtraData m K) = m.
Proof. by destruct K. Qed.

(** C3.  Whenever a document decodes into an Event or a UserCustomEvent,
    the extra map of the result has no entry under any known field's wire
    name; the removal goes by the names of the schema, whatever value the
    document had under them, an empty one included. *)
Theorem extra_excludes_known_keys `{Codecs} :
  (∀ (e0 e : Event) (d : data) (k : string),
     Event_UnmarshalJSON e0 d = (e, None) →
     k ∈ Event_names → Event_ExtraData e !! k = None)
  ∧ (∀ (e0 e : UserCustomEvent) (d : data) (k : string),
       UserCustomEvent_UnmarshalJSON e0 d = (e, None) →
       k ∈ UserCustomEvent_names → UserCustomEvent_ExtraData e !! k = None).
Proof.
  split.
  - intros e0 e d k. unfold Event_UnmarshalJSON.
    destruct (json_Unmarshal_eventForJSON d Event_zero) as [e2 | err]; [| done].
    destruct (json_Unmarshal_map d (Event_ExtraData e2)) as [m [err |]]; [done |].
    intros Heq Hk.
    assert (e = Event_set_ExtraData (removeFromMap m Event_names) e2) as ->
      by congruence.
    rewrite Event_ExtraData_set, lookup_removeFromMap.
    by destruct (decide (k ∈ Event_names)).
  - intros e0 e d k. unfold UserCustomEvent_UnmarshalJSON.
    destruct (json_Unmarshal_userCustomEventForJSON d UserCustomEvent_zero)
      as [e2 | err]; [| done].
    destruct (json_Unmarshal_map d (UserCustomEvent_ExtraData e2))
      as [m [err |]]; [done |].
    intros Heq Hk.
    assert (e = UserCustomEvent_set_ExtraData
                  (removeFromMap m UserCustomEvent_names) e2) as ->
      by congruence.
    rewrite UserCustomEvent_ExtraData_set, lookup_removeFromMap.
    by destruct (decide (k ∈ UserCustomEvent_names)).
Qed.

Lemma extra_excludes_known_keys_witness :
  Event_ExtraData (Event_UnmarshalJSON Event_zero Sample.empty_fields_document).1
    !! "cid" = None
  ∧ Event_ExtraData (Event_UnmarshalJSON Event_zero Sample.empty_fields_document).1
    !! "color" = Some (JString "red").
Proof.
  split; [| by vm_compute].
  apply (proj1 extra_excludes_known_keys Event_zero _ Sample.empty_fields_document).
  - by vm_compute.
  - apply (bool_decide_unpack _). by vm_compute.
Defined.

(** ** C4: the event type is an open string *)

Lemma Event_store_set_Type `{Codecs} f v ty (e : Event) :
  f ≠ fType →
  Event_store f v (Event_set_Type ty e) = Event_set_Type ty <$> Event_store f v e.
Proof.
  intros Hf. destruct e, f; try done; simpl;
    match goal with
    | |- mbind _ ?r = _ => by destruct r
    end.
Qed.

Lemma Event_decode_set_Type `{Codecs} post ty (e e' : Event) :
  (∀ k v, (k, v) ∈ post → Event_field_of k ≠ Some fType) →
  decode_object Event_fields Event_name Event_store post e = Ok e' →
  decode_object Event_fields Event_name Event_store post (Event_set_Type ty e)
  = Ok (Event_set_Type ty e').
Proof.
  revert e. induction post as [| [k v] post IH]; intros e Hpost; simpl.
  - by intros [= ->].
  - pose proof (Hpost k v (list_elem_of_here _ _)) as Hk.
    unfold Event_field_of in Hk.
    destruct (lookup_field Event_fields Event_name k) as [f |].
    + rewrite Event_store_set_Type by congruence.
      destruct (Event_store f v e) as [e1 | err]; [| done]. simpl.
      intros Hdec. apply IH; [| done].
      intros k' v' Hin. eapply Hpost. by apply list_elem_of_further.
    + intros Hdec. apply IH; [| done].
      intros k' v' Hin. eapply Hpost. by apply list_elem_of_further.
Qed.

Lemma Event_decode_type_cons `{Codecs} s post (e : Event) :
  decode_object Event_fields Event_name Event_store (("type", JString s) :: post) e
  = decode_object Event_fields Event_name Event_store post (Event_set_Type s e).
Proof. by destruct e. Qed.

Lemma Event_set_Type_ExtraData `{Codecs} ty m (e : Event) :
  Event_set_ExtraData m (Event_set_Type ty e)
  = Event_set_Type ty (Event_set_ExtraData m e).
Proof. by destruct e. Qed.

Lemma Event_ExtraData_set_Type `{Codecs} ty (e : Event) :
  Event_ExtraData (Event_set_Type ty e) = Event_ExtraData e.
Proof. by destruct e. Qed.

Lemma store_members_insert_deleted k v pre post m names :
  k ∈ names →
  removeFromMap (store_members (pre ++ (k, v) :: post) m) names
  = removeFromMap (store_members (pre ++ post) m) names.
Proof.
  intros Hk. rewrite (removeFromMap_delete k _ names Hk).
  rewrite (removeFromMap_delete k (store_members (pre ++ post) m) names Hk).
  f_equal. rewrite !store_members_app, store_members_cons.
  apply store_members_delete. by rewrite delete_insert_eq.
Qed.

(** C4.  Whatever string s is, one of the Event* constants or not, putting
    "type": s into a document that decodes gives a document that decodes
    with Type exactly s and everything else as before (the member is the
    last one the decoder stores into Type).  The document {"type": s} alone
    decodes to the event with Type s and nothing else set; in particular so
    does "some.future.event", which is none of the constants. *)
Theorem any_type_string_decodes `{Codecs} :
  (∀ (s : string) (pre post : list (string * json)) (e0 e : Event),
     Event_UnmarshalJSON e0 (Some (JObject (pre ++ post))) = (e, None) →
     (∀ k v, (k, v) ∈ post → Event_field_of k ≠ Some fType) →
     Event_UnmarshalJSON e0 (Some (JObject (pre ++ ("type", JString s) :: post)))
     = (Event_set_Type s e, None))
  ∧ (∀ (s : string) (e0 : Event),
       Event_UnmarshalJSON e0 (Some (JObject [("type", JString s)]))
       = (Event_set_Type s Event_zero, None))
  ∧ "some.future.event" ∉ EventType_constants.
Proof.
  assert (Hmain : ∀ (s : string) (pre post : list (string * json)) (e0 e : Event),
     Event_UnmarshalJSON e0 (Some (JObject (pre ++ post))) = (e, None) →
     (∀ k v, (k, v) ∈ post → Event_field_of k ≠ Some fType) →
     Event_UnmarshalJSON e0 (Some (JObject (pre ++ ("type", JString s) :: post)))
     = (Event_set_Type s e, None)).
  { intros s pre post e0 e. unfold Event_UnmarshalJSON, json_Unmarshal_eventForJSON.
    cbn [json_Unmarshal_struct json_Unmarshal_map].
    rewrite !decode_object_app.
    destruct (decode_object _ _ _ pre Event_zero) as [e1 | err] eqn:Hpre; [| done].
    cbn [mbind result_bind].
    destruct (decode_object _ _ _ post e1) as [e2 | err] eqn:Hpost; [| done].
    destruct (forallb _ (pre ++ post)) eqn:Hok; [| done].
    intros Heq Hlast.
    assert (e = Event_set_ExtraData
                  (removeFromMap (store_members (pre ++ post) (Event_ExtraData e2))
                     Event_names) e2) as -> by congruence.
    rewrite Event_decode_type_cons.
    rewrite (Event_decode_set_Type post s e1 e2 Hlast Hpost).
    rewrite forallb_app in Hok |- *. cbn [forallb generic_ok snd andb].
    rewrite Hok.
    rewrite Event_ExtraData_set_Type, store_members_insert_deleted.
    - by rewrite Event_set_Type_ExtraData.
    - apply (bool_decide_unpack _). by vm_compute. }
  split; [exact Hmain | split].
  - intros s e0. apply (Hmain s [] [] e0 Event_zero); [by vm_compute |].
    intros k v Hin. by apply elem_of_nil in Hin.
  - apply (bool_decide_unpack _). by vm_compute.
Qed.

Lemma any_type_string_decodes_witness :
  Event_UnmarshalJSON Event_zero
    (Some (JObject [("cid", JString "c1"); ("type", JString "some.future.event");
                    ("color", JString "red")]))
  = (Event_set_Type "some.future.event"
       (Event_UnmarshalJSON Event_zero
          (Some (JObject [("cid", JString "c1"); ("color", JString "red")]))).1,
     None).
Proof.
  apply (proj1 any_type_string_decodes "some.future.event"
           [("cid", JString "c1")] [("color", JString "red")]).
  - by vm_compute.
  - intros k v Hin. apply elem_of_cons in Hin as [Heq | Hin].
    + injection Heq as -> ->. by vm_compute.
    + by apply elem_of_nil in Hin.
Defined.

(** ** C5, C6, C10: the guards of the dispatch calls *)

(** C5.  SendEvent with a nil event returns the error "event is nil" and no
    response; the world is as before (no call of the transport) and there is
    no event to have been changed: the check comes before the User field is
    set and before the request is built. *)
Theorem SendEvent_nil_event `{Codecs} (roundTrip : Request → Response * option error) :
  ∀ (ch : Channel) (userID : string) (w : World),
    SendEvent roundTrip ch None userID w
    = ((None, Some (errors_New "event is nil")), None, w).
Proof. done. Qed.

(** C6.  SendUserCustomEvent returns "event is nil" for a nil event,
    whatever the target, and "targetUserID should not be empty" for an empty
    target with an event; in both cases the world is as before (no call of
    the transport) and the event is untouched. *)
Theorem SendUserCustomEvent_guards `{Codecs}
    (roundTrip : Request → Response * option error) :
  (∀ (c : Client) (targetUserID : string) (w : World),
     SendUserCustomEvent roundTrip c targetUserID None w
     = ((None, Some (errors_New "event is nil")), None, w))
  ∧ (∀ (c : Client) (ev : UserCustomEvent) (w : World),
       SendUserCustomEvent roundTrip c "" (Some ev) w
       = ((None, Some (errors_New "targetUserID should not be empty")),
          Some ev, w)).
Proof. done. Qed.

(** C10.  With a nil event and an empty target at once the error is
    "event is nil": the event is checked first. *)
Theorem SendUserCustomEvent_nil_event_first `{Codecs}
    (roundTrip : Request → Response * option error) :
  ∀ (c : Client) (w : World),
    SendUserCustomEvent roundTrip c "" None w
    = ((None, Some (errors_New "event is nil")), None, w).
Proof. done. Qed.

(** ** C7: the acting user *)

Lemma Event_emit_set_User `{Codecs} (u : User) (ev : Event) :
  Event_emit fUser (Event_set_User (Some u) ev) = Some (MarshalJSON u).
Proof. by destruct ev. Qed.

Lemma Event_User_set_User `{Codecs} (u : option User) (ev : Event) :
  Event_User (Event_set_User u ev) = u.
Proof. by destruct ev. Qed.

(** C7.  For a non-nil event and any userID, the empty string included,
    SendEvent leaves the event with User set to the User whose ID is userID
    (whatever User was before), issues one request whose body is that event,
    and the document json.Marshal makes of the body has, under "event", an
    object whose "user" is the encoding of that User and nothing else. *)
Theorem SendEvent_sets_acting_user `{Codecs}
    (roundTrip : Request → Response * option error) :
  ∀ (ch : Channel) (ev : Event) (userID : string) (w : World),
    let u := Build_User _ userID UserFields_zero in
    let ev' := Event_set_User (Some u) ev in
    let req :=
      Build_Request (Channel_client ch) http_MethodPost
        (path_Join ["channels"; PathEscape (Channel_Type ch);
                    PathEscape (Channel_ID ch); "event"])
        (EventBody ev') in
    SendEvent roundTrip ch (Some ev) userID w
    = (((Some (roundTrip req).1), (roundTrip req).2), Some ev', w ++ [req])
    ∧ Event_User ev' = Some u
    ∧ User_ID u = userID
    ∧ ∃ ms, json_Marshal_body (Request_body req)
            = Ok (Some (JObject [("event", JObject ms)]))
            ∧ ∀ v, ("user", v) ∈ ms ↔ v = MarshalJSON u.
Proof.
  intros ch ev userID w u ev' req. split; [| split; [| split]].
  - unfold SendEvent, makeRequest. fold u. fold ev'. fold req.
    by destruct (roundTrip req).
  - apply Event_User_set_User.
  - done.
  - destruct (Event_MarshalJSON_emitted ev' fUser (MarshalJSON u)
                (Event_emit_set_User u ev)) as (d & Hd & Huser).
    revert Hd Huser. unfold json_Marshal_body, Event_MarshalJSON, addToMapAndMarshal.
    intros [= <-] Huser. eexists. split; [reflexivity | exact Huser].
Qed.

(** ** C8: the request paths *)

Lemma upperhex_not_slash n : Ascii.eqb (upperhex n) "/" = false.
Proof.
  unfold upperhex. generalize (N.to_nat n). intros k.
  do 17 (destruct k as [| k]; [done |]). done.
Qed.

Lemma shouldEscape_slash c : shouldEscape c = false → Ascii.eqb c "/" = false.
Proof.
  intros Hesc. destruct (Ascii.eqb_spec c "/") as [-> | Hne]; [| done].
  by vm_compute in Hesc.
Qed.

(** An escaped string is one path element: it has no slash. *)
Lemma split_slash_PathEscape s : split_slash (PathEscape s) = [PathEscape s].
Proof.
  induction s as [| c s IH]; [done |].
  simpl. destruct (shouldEscape c) eqn:Hesc.
  - cbn [split_slash]. rewrite !upperhex_not_slash, IH. done.
  - cbn [split_slash]. by rewrite (shouldEscape_slash c Hesc), IH.
Qed.

Lemma split_slash_element a r :
  split_slash a = [a] → split_slash (a +:+ String "/" r) = a :: split_slash r.
Proof.
  induction a as [| c a IH]; [done |].
  simpl. destruct (Ascii.eqb c "/"); [done |].
  destruct (split_slash a) as [| h t] eqn:Ha.
  - intros [= <-]. done.
  - intros [= <- ->]. by rewrite IH.
Qed.

Lemma PathEscape_empty s : PathEscape s = "" → s = "".
Proof. destruct s as [| c s]; [done |]. simpl. by destruct (shouldEscape c). Qed.

Lemma PathEscape_dot s : PathEscape s = "." → s = ".".
Proof.
  destruct s as [| c s]; [done |]. simpl.
  destruct (shouldEscape c); [done |].
  intros [= -> Hs]. by rewrite (PathEscape_empty s Hs).
Qed.

Lemma PathEscape_dot_dot s : PathEscape s = ".." → s = "..".
Proof.
  destruct s as [| c s]; [done |]. simpl.
  destruct (shouldEscape c); [done |].
  intros [= -> Hs]. by rewrite (PathEscape_dot s Hs).
Qed.

(** Escaping makes no element empty, "." or ".." that was not so before. *)
Lemma PathEscape_special s :
  PathEscape s ∈ [""; "."; ".."] → s ∈ [""; "."; ".."].
Proof.
  rewrite !elem_of_cons, !elem_of_nil.
  intros [Hs | [Hs | [Hs | []]]].
  - left. by apply PathEscape_empty.
  - right; left. by apply PathEscape_dot.
  - right; right; left. by apply PathEscape_dot_dot.
Qed.

Lemma clean_elements_plain rooted seg segs out :
  seg ∉ [""; "."; ".."] →
  clean_elements rooted (seg :: segs) out = clean_elements rooted segs (seg :: out).
Proof.
  rewrite !not_elem_of_cons. intros (Hempty & Hdot & Hdotdot & _).
  cbn [clean_elements]. by rewrite !bool_decide_eq_false_2 by done.
Qed.

Lemma path_Join_channels a b :
  split_slash a = [a] → split_slash b = [b] →
  a ∉ [""; "."; ".."] → b ∉ [""; "."; ".."] →
  path_Join ["channels"; a; b; "event"]
  = "channels/" +:+ a +:+ "/" +:+ b +:+ "/event".
Proof.
  intros Ha Hb Hna Hnb. cbn [path_Join bool_decide decide_rel].
  rewrite bool_decide_eq_false_2 by done.
  unfold path_Clean. cbn [String.concat].
  change (is_rooted _) with false. cbv iota.
  replace (split_slash _) with ["channels"; a; b; "event"].
  2:{ symmetry.
      change ("channels" +:+ "/" +:+ a +:+ "/" +:+ b +:+ "/" +:+ "event")
        with ("channels" +:+ String "/" (a +:+ String "/" (b +:+ String "/" "event"))).
      rewrite (split_slash_element "channels") by done.
      rewrite (split_slash_element a) by done.
      by rewrite (split_slash_element b) by done. }
  rewrite (clean_elements_plain false "channels")
    by (apply (bool_decide_unpack _); by vm_compute).
  rewrite (clean_elements_plain false a), (clean_elements_plain false b) by done.
  rewrite (clean_elements_plain false "event")
    by (apply (bool_decide_unpack _); by vm_compute).
  done.
Qed.

Lemma path_Join_users a :
  split_slash a = [a] → a ∉ [""; "."; ".."] →
  path_Join ["users"; a; "event"] = "users/" +:+ a +:+ "/event".
Proof.
  intros Ha Hna. cbn [path_Join bool_decide decide_rel].
  rewrite bool_decide_eq_false_2 by done.
  unfold path_Clean. cbn [String.concat].
  change (is_rooted _) with false. cbv iota.
  replace (split_slash _) with ["users"; a; "event"].
  2:{ symmetry.
      change ("users" +:+ "/" +:+ a +:+ "/" +:+ "event")
        with ("users" +:+ String "/" (a +:+ String "/" "event")).
      rewrite (split_slash_element "users") by done.
      by rewrite (split_slash_element a) by done. }
  rewrite (clean_elements_plain false "users")
    by (apply (bool_decide_unpack _); by vm_compute).
  rewrite (clean_elements_plain false a) by done.
  rewrite (clean_elements_plain false "event")
    by (apply (bool_decide_unpack _); by vm_compute).
  done.
Qed.

(** C8, as amended.  path.Join cleans what it joins, so an element that is
    empty, "." or ".." does not survive as a segment.  For a channel type
    and a channel id that are none of these, SendEvent issues a POST to
    "channels/" + PathEscape(type) + "/" + PathEscape(id) + "/event"; for
    type "messaging" and id "general/team" that is
    "channels/messaging/general%2Fteam/event".  For a target user id that
    is none of these, SendUserCustomEvent issues a POST to
    "users/" + PathEscape(id) + "/event". *)
Theorem request_paths `{Codecs} (roundTrip : Request → Response * option error) :
  (∀ (ch : Channel) (ev : Event) (userID : string) (w : World),
     Channel_Type ch ∉ [""; "."; ".."] → Channel_ID ch ∉ [""; "."; ".."] →
     ∃ req, (SendEvent roundTrip ch (Some ev) userID w).2 = w ++ [req]
            ∧ Request_method req = "POST"
            ∧ Request_path req
              = "channels/" +:+ PathEscape (Channel_Type ch) +:+ "/"
                +:+ PathEscape (Channel_ID ch) +:+ "/event")
  ∧ (∀ (ch : Channel) (ev : Event) (userID : string) (w : World),
       Channel_Type ch = "messaging" → Channel_ID ch = "general/team" →
       ∃ req, (SendEvent roundTrip ch (Some ev) userID w).2 = w ++ [req]
              ∧ Request_method req = "POST"
              ∧ Request_path req = "channels/messaging/general%2Fteam/event")
  ∧ (∀ (c : Client) (targetUserID : string) (ev : UserCustomEvent) (w : World),
       targetUserID ∉ [""; "."; ".."] →
       ∃ req, (SendUserCustomEvent roundTrip c targetUserID (Some ev) w).2
              = w ++ [req]
              ∧ Request_method req = "POST"
              ∧ Request_path req = "users/" +:+ PathEscape targetUserID +:+ "/event").
Proof.
  assert (Hchannel : ∀ (ch : Channel) (ev : Event) (userID : string) (w : World),
     Channel_Type ch ∉ [""; "."; ".."] → Channel_ID ch ∉ [""; "."; ".."] →
     ∃ req, (SendEvent roundTrip ch (Some ev) userID w).2 = w ++ [req]
            ∧ Request_method req = "POST"
            ∧ Request_path req
              = "channels/" +:+ PathEscape (Channel_Type ch) +:+ "/"
                +:+ PathEscape (Channel_ID ch) +:+ "/event").
  { intros ch ev userID w Hty Hid. unfold SendEvent, makeRequest.
    destruct (roundTrip _) as [resp err]. eexists. split; [reflexivity |].
    split; [done |]. cbn [Request_path].
    apply path_Join_channels; try apply split_slash_PathEscape.
    - intros Hin. by apply Hty, PathEscape_special.
    - intros Hin. by apply Hid, PathEscape_special. }
  split; [exact Hchannel | split].
  - intros ch ev userID w Hty Hid.
    destruct (Hchannel ch ev userID w) as (req & Hw & Hm & Hp).
    + rewrite Hty. apply (bool_decide_unpack _). by vm_compute.
    + rewrite Hid. apply (bool_decide_unpack _). by vm_compute.
    + exists req. split; [done |]. split; [done |]. by rewrite Hp, Hty, Hid.
  - intros c u ev w Hu. unfold SendUserCustomEvent, makeRequest.
    rewrite bool_decide_eq_false_2.
    2:{ intros ->. apply Hu, list_elem_of_here. }
    destruct (roundTrip _) as [resp err]. eexists. split; [reflexivity |].
    split; [done |]. cbn [Request_path].
    apply path_Join_users; [apply split_slash_PathEscape |].
    intros Hin. by apply Hu, PathEscape_special.
Qed.

Lemma request_paths_witness :
  (∃ req, (SendEvent Sample.roundTrip ("messaging", "general/team")
             (Some Sample.event) "bob" []).2 = [] ++ [req]
          ∧ Request_method req = "POST"
          ∧ Request_path req = "channels/messaging/general%2Fteam/event")
  ∧ (∃ req, (SendUserCustomEvent Sample.roundTrip tt "a b/c"
               (Some Sample.custom_event) []).2 = [] ++ [req]
            ∧ Request_method req = "POST"
            ∧ Request_path req = "users/" +:+ PathEscape "a b/c" +:+ "/event").
Proof.
  split.
  - by apply (proj1 (proj2 (request_paths Sample.roundTrip))
                ("messaging", "general/team") Sample.event "bob" []).
  - apply (proj2 (proj2 (request_paths Sample.roundTrip)) tt "a b/c"
             Sample.custom_event []).
    apply (bool_decide_unpack _). by vm_compute.
Defined.

(** C8 as stated fails for the target user id "..": the path of the request
    is "event", not "users/" + PathEscape("..") + "/event", which would be
    "users/../event". *)
Lemma dot_dot_user_path :
  PathEscape ".." = ".."
  ∧ ∃ req, (SendUserCustomEvent Sample.roundTrip tt ".."
              (Some Sample.custom_event) []).2 = [req]
           ∧ Request_method req = "POST"
           ∧ Request_path req = "event"
           ∧ Request_path req ≠ "users/" +:+ PathEscape ".." +:+ "/event".
Proof.
  split; [done |]. eexists. split; [reflexivity |]. by vm_compute.
Qed.

(** ** C9: when decoding fails *)

Lemma json_Unmarshal_map_ok d m :
  (json_Unmarshal_map d m).2 = None ↔ map_ok d = true.
Proof.
  destruct d as [[| b | n | s | l | ms] |]; simpl; try done.
  by destruct (forallb _ ms).
Qed.

Lemma Event_Unmarshal_struct_ok `{Codecs} d (e : Event) :
  is_Ok (json_Unmarshal_eventForJSON d e) = Event_typed_ok d.
Proof.
  destruct d as [[| b | n | s | l | ms] |]; try done.
  apply decode_object_is_Ok. intros f j e'. apply Event_store_accepts.
Qed.

Lemma UserCustomEvent_Unmarshal_struct_ok `{Codecs} d (e : UserCustomEvent) :
  is_Ok (json_Unmarshal_userCustomEventForJSON d e) = UserCustomEvent_typed_ok d.
Proof.
  destruct d as [[| b | n | s | l | ms] |]; try done.
  apply decode_object_is_Ok. intros f j e'. apply UserCustomEvent_store_accepts.
Qed.

(** C9, as amended.  Decoding into an Event or a UserCustomEvent returns an
    error exactly when the input is not one well-formed JSON value, or is a
    value other than an object or null, or is an object with a member whose
    key matches a known field (exactly or up to case) and whose value the
    type of that field rejects, or is an object holding a number that fits no
    float64.  In all but the last case the receiver is left as it was.  The
    document null decodes without error. *)
Theorem decode_fails_exactly `{Codecs} :
  (∀ (e0 : Event) (d : data),
     ((Event_UnmarshalJSON e0 d).2 = None ↔ Event_document_ok d = true)
     ∧ (Event_typed_ok d = false →
        (Event_UnmarshalJSON e0 d).1 = e0 ∧ (Event_UnmarshalJSON e0 d).2 ≠ None))
  ∧ (∀ (e0 : UserCustomEvent) (d : data),
       ((UserCustomEvent_UnmarshalJSON e0 d).2 = None
        ↔ UserCustomEvent_document_ok d = true)
       ∧ (UserCustomEvent_typed_ok d = false →
          (UserCustomEvent_UnmarshalJSON e0 d).1 = e0
          ∧ (UserCustomEvent_UnmarshalJSON e0 d).2 ≠ None))
  ∧ (∀ d : data,
       (d = None ∨ (∃ j, d = Some j ∧ j ≠ JNull ∧ ∀ ms, j ≠ JObject ms)) →
       Event_typed_ok d = false ∧ UserCustomEvent_typed_ok d = false).
Proof.
  split; [| split].
  - intros e0 d. unfold Event_document_ok, Event_UnmarshalJSON.
    rewrite <- (Event_Unmarshal_struct_ok d Event_zero).
    destruct (json_Unmarshal_eventForJSON d Event_zero) as [e2 | err]; simpl.
    + split; [| done]. rewrite <- (json_Unmarshal_map_ok d (Event_ExtraData e2)).
      by destruct (json_Unmarshal_map d (Event_ExtraData e2)) as [m [err |]].
    + done.
  - intros e0 d. unfold UserCustomEvent_document_ok, UserCustomEvent_UnmarshalJSON.
    rewrite <- (UserCustomEvent_Unmarshal_struct_ok d UserCustomEvent_zero).
    destruct (json_Unmarshal_userCustomEventForJSON d UserCustomEvent_zero)
      as [e2 | err]; simpl.
    + split; [| done].
      rewrite <- (json_Unmarshal_map_ok d (UserCustomEvent_ExtraData e2)).
      by destruct (json_Unmarshal_map d (UserCustomEvent_ExtraData e2))
           as [m [err |]].
    + done.
  - intros d [-> | (j & -> & Hnull & Hobj)]; [done |].
    destruct j as [| b | n | s | l | ms]; try done.
    by destruct (Hobj ms).
Qed.

Lemma decode_fails_exactly_witness :
  (Event_UnmarshalJSON Sample.event (Some (JArray []))).1 = Sample.event
  ∧ (Event_UnmarshalJSON Sample.event (Some (JArray []))).2 ≠ None.
Proof.
  apply (proj2 (proj1 decode_fails_exactly Sample.event (Some (JArray [])))).
  by vm_compute.
Defined.

(** C9 as stated fails in both directions.  {"type": 5, "color": "red"} is a
    flat key/value object, and decoding it fails; null is not an object, and
    decoding it succeeds. *)
Lemma flat_object_rejected_null_accepted :
  Event_UnmarshalJSON Sample.event
    (Some (JObject [("type", JNumber (Integer 5)); ("color", JString "red")]))
  = (Sample.event, Some (UnmarshalTypeError "number"))
  ∧ Event_UnmarshalJSON Sample.event (Some JNull) = (Event_zero, None).
Proof. split; by vm_compute. Qed.

(** * Further properties of the code *)

(** ** The dispatch calls *)

Lemma app_singleton_ne {A} (w : list A) (x : A) : w ++ [x] ≠ w.
Proof.
  intros Heq. apply (f_equal length) in Heq. rewrite length_app in Heq.
  simpl in Heq. lia.
Qed.

(** X1.  SendUserCustomEvent never changes the event it is given, calls the
    transport exactly when the event is not nil and the target is not empty,
    and then issues one POST whose body is that event and hands back the
    response and the error of the transport as they are. *)
Theorem SendUserCustomEvent_calls `{Codecs}
    (roundTrip : Request → Response * option error) :
  ∀ (c : Client) (targetUserID : string) (event : option UserCustomEvent)
    (w : World),
    let r := SendUserCustomEvent roundTrip c targetUserID event w in
    r.1.2 = event
    ∧ (r.2 = w ↔ event = None ∨ targetUserID = "")
    ∧ ∀ ev, event = Some ev → targetUserID ≠ "" →
        let req :=
          Build_Request c http_MethodPost
            (path_Join ["users"; PathEscape targetUserID; "event"])
            (UserCustomEventBody ev) in
        r = ((Some (roundTrip req).1, (roundTrip req).2), Some ev, w ++ [req]).
Proof.
  intros c t event w. unfold SendUserCustomEvent, makeRequest.
  destruct event as [ev |]; cbn zeta.
  - case_bool_decide as Ht.
    + split; [done |]. split; [by split; [right |] |]. by intros ev' _ Hne.
    + destruct (roundTrip _) as [resp err] eqn:Hrt. cbn [fst snd].
      split; [done |]. split.
      * split; [by intros ?%app_singleton_ne | by intros [|]].
      * intros ev' [= <-] _. by rewrite Hrt.
  - split; [done |]. split; [by split; [left |] |]. by intros ev.
Qed.

Lemma SendUserCustomEvent_calls_witness :
  SendUserCustomEvent Sample.roundTrip tt "bob" (Some Sample.custom_event) []
  = ((Some 201, None), Some Sample.custom_event,
     [Build_Request tt "POST" "users/bob/event"
        (UserCustomEventBody Sample.custom_event)]).
Proof.
  by apply (proj2 (proj2 (SendUserCustomEvent_calls Sample.roundTrip tt "bob"
                          (Some Sample.custom_event) []))).
Defined.

Lemma Event_set_User_other `{Codecs} u (ev : Event) f :
  f = fUser ∨ Event_agree f (Event_set_User u ev) ev.
Proof. destruct ev, f; simpl; auto. Qed.

Lemma Event_set_User_ExtraData `{Codecs} u (ev : Event) :
  Event_ExtraData (Event_set_User u ev) = Event_ExtraData ev.
Proof. by destruct ev. Qed.

Lemma Event_set_User_idem `{Codecs} u u' (ev : Event) :
  Event_set_User u (Event_set_User u' ev) = Event_set_User u ev.
Proof. by destruct ev. Qed.

(** X2.  Of the event it is given SendEvent changes the User field and
    nothing else: every other field and the extra map are as before, whatever
    the transport answers.  Sending the event again for the same user leaves
    it as the first call left it. *)
Theorem SendEvent_changes_User_only `{Codecs}
    (roundTrip : Request → Response * option error) :
  ∀ (ch : Channel) (ev : Event) (userID : string) (w : World),
    ∃ ev', (SendEvent roundTrip ch (Some ev) userID w).1.2 = Some ev'
           ∧ (∀ f, f = fUser ∨ Event_agree f ev' ev)
           ∧ Event_ExtraData ev' = Event_ExtraData ev
           ∧ ∀ (ch2 : Channel) (w2 : World),
               (SendEvent roundTrip ch2 (Some ev') userID w2).1.2 = Some ev'.
Proof.
  intros ch ev userID w. unfold SendEvent, makeRequest.
  destruct (roundTrip _) as [resp err]. eexists. split; [reflexivity |].
  split; [apply Event_set_User_other |].
  split; [apply Event_set_User_ExtraData |].
  intros ch2 w2. destruct (roundTrip _) as [resp2 err2]. cbn [fst snd].
  by rewrite Event_set_User_idem.
Qed.

(** ** Which keys a field takes *)

Lemma NoDup_fmap_eq {A B} (g : A → B) `{EqDecision B} (l : list A) x y :
  NoDup (g <$> l) → x ∈ l → y ∈ l → g x = g y → x = y.
Proof.
  induction l as [| a l IH]; intros Hnd Hx Hy Hg.
  - by apply elem_of_nil in Hx.
  - rewrite fmap_cons in Hnd. apply NoDup_cons in Hnd as [Ha Hnd].
    apply elem_of_cons in Hx as [-> | Hx], Hy as [-> | Hy].
    + done.
    + exfalso. apply Ha. rewrite Hg. by apply list_elem_of_fmap_2.
    + exfalso. apply Ha. rewrite <- Hg. by apply list_elem_of_fmap_2.
    + by apply IH.
Qed.

Lemma lookup_field_folded {F} (fields : list F) (name : F → string) k f :
  NoDup ((λ f, foldName (name f)) <$> fields) →
  lookup_field fields name k = Some f
  ↔ f ∈ fields ∧ foldName (name f) = foldName k.
Proof.
  intros Hnd. split; [apply lookup_field_Some |].
  intros [Hf Hk]. unfold lookup_field.
  destruct (find _ fields) as [f' |] eqn:Hexact.
  - apply find_some in Hexact as [Hf' Heq%bool_decide_eq_true].
    f_equal. apply (NoDup_fmap_eq (λ f, foldName (name f)) fields);
      [done | by apply list_elem_of_In | done |].
    by rewrite Heq, Hk.
  - rewrite <- Hk.
    apply (find_name fields (λ f, foldName (name f)) f Hnd Hf).
Qed.

Lemma Event_names_fold_NoDup :
  NoDup ((λ f, foldName (Event_name f)) <$> Event_fields).
Proof. apply (bool_decide_unpack _). by vm_compute. Qed.

Lemma UserCustomEvent_names_fold_NoDup :
  NoDup ((λ f, foldName (UserCustomEvent_name f)) <$> UserCustomEvent_fields).
Proof. apply (bool_decide_unpack _). by vm_compute. Qed.

Lemma N_of_ascii_upper c :
  N_of_ascii (upper c)
  = (if (97 <=? N_of_ascii c) && (N_of_ascii c <=? 122)
     then N_of_ascii c - 32 else N_of_ascii c)%N.
Proof.
  unfold upper. cbv zeta. pose proof (N_ascii_bounded c) as Hb.
  destruct ((97 <=? N_of_ascii c) && (N_of_ascii c <=? 122))%N; [| done].
  apply N_ascii_embedding. lia.
Qed.

(** Two bytes have the same capital exactly when they are equal up to
    case. *)
Lemma upper_eq_iff c d : upper c = upper d ↔ char_equal_fold c d = true.
Proof.
  assert (Hinj : upper c = upper d ↔ N_of_ascii (upper c) = N_of_ascii (upper d)).
  { split; [by intros -> |]. intros Heq.
    by rewrite <- (ascii_N_embedding (upper c)), Heq, ascii_N_embedding. }
  rewrite Hinj, !N_of_ascii_upper. unfold char_equal_fold, letter_pair. cbv zeta.
  generalize (N_of_ascii c) (N_of_ascii d). intros a b.
  repeat match goal with
         | |- context [(?x <=? ?y)%N] => destruct (N.leb_spec x y)
         | |- context [(?x =? ?y)%N] => destruct (N.eqb_spec x y)
         end; simpl; split; intros; try done; lia.
Qed.

Lemma foldName_ascii c r :
  (N_of_ascii c <? 128)%N = true →
  foldName (String c r) = String (upper c) (foldName r).
Proof. by destruct c as [[] [] [] [] [] [] [] []]. Qed.

(** On ASCII keys the folding of the decoder is equality up to case. *)
Lemma foldName_equal_fold s t :
  is_ascii s = true → is_ascii t = true →
  foldName s = foldName t ↔ equal_fold s t = true.
Proof.
  unfold is_ascii. revert t.
  induction s as [| c s IH]; intros [| d t]; try done.
  - cbn [list_ascii_of_string forallb]. intros _ [Hd _]%andb_true_iff.
    rewrite foldName_ascii by done. done.
  - cbn [list_ascii_of_string forallb]. intros [Hc _]%andb_true_iff _.
    rewrite foldName_ascii by done. done.
  - cbn [list_ascii_of_string forallb equal_fold].
    intros [Hc Hs]%andb_true_iff [Hd Ht]%andb_true_iff.
    rewrite !foldName_ascii by done.
    rewrite andb_true_iff, <- upper_eq_iff, <- (IH t Hs Ht).
    split; [by intros [= -> ->] | by intros [-> ->]].
Qed.

Lemma Event_name_ascii `{Codecs} f : is_ascii (Event_name f) = true.
Proof. by destruct f. Qed.

Lemma UserCustomEvent_name_ascii `{Codecs} f :
  is_ascii (UserCustomEvent_name f) = true.
Proof. by destruct f. Qed.

Lemma Event_field_of_equal_fold `{Codecs} k f :
  is_ascii k = true →
  Event_field_of k = Some f ↔ equal_fold k (Event_name f) = true.
Proof.
  intros Hk. unfold Event_field_of.
  rewrite (lookup_field_folded _ _ k f Event_names_fold_NoDup).
  rewrite <- (foldName_equal_fold k _ Hk (Event_name_ascii f)).
  split; [by intros [_ ->] | intros ->].
  split; [apply Event_fields_all | done].
Qed.

(** X3.  json.Unmarshal matches keys to fields without regard to case, and
    so do both UnmarshalJSON methods: an ASCII key is stored into a known
    field exactly when it equals the field's wire name up to the case of
    its letters, byte for byte otherwise ("TYPE" and "Type" go into Type,
    "user-id" goes nowhere); a key with a long s (U+017F) for an s is
    taken as well.  A document whose only member has a case variant of
    "type" as its key decodes with that member's string in Type, and,
    unless the key is "type" itself, with the member in the extra map
    too. *)
Theorem field_of_key_up_to_case `{Codecs} :
  (∀ (k : string) (f : EventField),
     is_ascii k = true →
     Event_field_of k = Some f ↔ equal_fold k (Event_name f) = true)
  ∧ (∀ (k : string) (f : UserCustomEventField),
       is_ascii k = true →
       UserCustomEvent_field_of k = Some f
       ↔ equal_fold k (UserCustomEvent_name f) = true)
  ∧ Event_field_of
      (String "u" (String (ascii_of_N 197) (String (ascii_of_N 191) "er")))
    = Some fUser
  ∧ (∀ (k s : string) (e0 : Event),
       is_ascii k = true → equal_fold k "type" = true →
       ∃ e, Event_UnmarshalJSON e0 (Some (JObject [(k, JString s)])) = (e, None)
            ∧ Event_Type e = s
            ∧ (k ≠ "type" → Event_ExtraData e !! k = Some (JString s))).
Proof.
  split; [| split; [| split]].
  - intros k f. apply Event_field_of_equal_fold.
  - intros k f Hk. unfold UserCustomEvent_field_of.
    rewrite (lookup_field_folded _ _ k f UserCustomEvent_names_fold_NoDup).
    rewrite <- (foldName_equal_fold k _ Hk (UserCustomEvent_name_ascii f)).
    split; [by intros [_ ->] | intros ->].
    split; [apply UserCustomEvent_fields_all | done].
  - by vm_compute.
  - intros k s e0 Hk Hfold.
    assert (Hf : Event_field_of k = Some fType)
      by (by apply Event_field_of_equal_fold).
    unfold Event_UnmarshalJSON, json_Unmarshal_eventForJSON.
    cbn [json_Unmarshal_struct decode_object].
    unfold Event_field_of in Hf. rewrite Hf.
    eexists. split; [reflexivity |]. split; [done |].
    intros Hne. cbn [Event_ExtraData Event_set_ExtraData].
    rewrite lookup_removeFromMap.
    destruct (decide (k ∈ Event_names)) as [Hin | _].
    + exfalso. apply list_elem_of_fmap in Hin as (g & -> & Hg).
      pose proof (lookup_field_name Event_fields Event_name g
                    Event_names_NoDup Hg) as Hg'.
      rewrite Hg' in Hf. by simplify_eq.
    + apply lookup_insert_eq.
Qed.

Lemma field_of_key_up_to_case_witness :
  Event_field_of "Watcher_Count" = Some fWatcherCount
  ∧ UserCustomEvent_field_of "CREATED_AT" = Some ufCreatedAt
  ∧ ∃ e, Event_UnmarshalJSON Event_zero (Some (JObject [("TYPE", JString "x")]))
         = (e, None)
         ∧ Event_Type e = "x"
         ∧ Event_ExtraData e !! "TYPE" = Some (JString "x").
Proof.
  split; [| split].
  - by apply (proj1 field_of_key_up_to_case "Watcher_Count" fWatcherCount).
  - by apply (proj1 (proj2 field_of_key_up_to_case) "CREATED_AT" ufCreatedAt).
  - destruct (proj2 (proj2 (proj2 field_of_key_up_to_case)) "TYPE" "x" Event_zero)
      as (e & He & Hty & Hex); [done | done |].
    exists e. split; [done |]. split; [done |]. by apply Hex.
Defined.

(** ** What decoding does to the receiver *)

Lemma Event_agree_refl `{Codecs} f (e : Event) : Event_agree f e e.
Proof. by destruct f. Qed.

Lemma UserCustomEvent_agree_refl `{Codecs} f (e : UserCustomEvent) :
  UserCustomEvent_agree f e e.
Proof. by destruct f. Qed.

Lemma Event_store_other `{Codecs} f g j (e e' : Event) :
  Event_store g j e = Ok e' → f ≠ g → Event_agree f e' e.
Proof.
  destruct e, g; simpl; intros He Hne;
    match type of He with
    | mbind _ ?r = _ => destruct r; simplify_eq/=; by destruct f
    end.
Qed.

Lemma UserCustomEvent_store_other `{Codecs} f g j (e e' : UserCustomEvent) :
  UserCustomEvent_store g j e = Ok e' → f ≠ g → UserCustomEvent_agree f e' e.
Proof.
  destruct e, g; simpl; intros He Hne;
    match type of He with
    | mbind _ ?r = _ => destruct r; simplify_eq/=; by destruct f
    end.
Qed.

Lemma Event_agree_set_ExtraData `{Codecs} f m (e : Event) :
  Event_agree f (Event_set_ExtraData m e) e.
Proof. by destruct e, f. Qed.

Lemma UserCustomEvent_agree_set_ExtraData `{Codecs} f m (e : UserCustomEvent) :
  UserCustomEvent_agree f (UserCustomEvent_set_ExtraData m e) e.
Proof. by destruct e, f. Qed.

(** A field that no member is stored into keeps its value. *)
Lemma decode_object_untouched {S F} `{EqDecision F} (fields : list F)
    (name : F → string) (store : F → json → S → result S)
    (agree : F → S → S → Prop) (f : F) ms s s' :
  (∀ g s, agree g s s) →
  (∀ g s1 s2 s3, agree g s1 s2 → agree g s2 s3 → agree g s1 s3) →
  (∀ g j s s', store g j s = Ok s' → f ≠ g → agree f s' s) →
  (∀ k v, (k, v) ∈ ms → lookup_field fields name k ≠ Some f) →
  decode_object fields name store ms s = Ok s' → agree f s' s.
Proof.
  intros Hrefl Htrans Hother. revert s.
  induction ms as [| [k v] ms IH]; intros s Hms; simpl.
  - intros [= ->]. apply Hrefl.
  - pose proof (Hms k v (list_elem_of_here _ _)) as Hk.
    assert (Hms' : ∀ k v, (k, v) ∈ ms → lookup_field fields name k ≠ Some f)
      by (intros k' v' Hin; apply (Hms k' v'); by apply list_elem_of_further).
    destruct (lookup_field fields name k) as [g |]; [| by apply IH].
    destruct (store g v s) as [s1 | err] eqn:Hs1; [| done]. simpl.
    intros Hdec. eapply Htrans; [by apply IH |].
    eapply Hother; [done | congruence].
Qed.

(** X4.  A successful decode leaves nothing of the receiver's earlier value:
    a known field that no member of the document is stored into ends up
    zero, not as it was, and the extra map holds no key that the document
    does not have. *)
Theorem decode_resets_absent_fields `{Codecs} :
  (∀ (e0 e : Event) (ms : list (string * json)),
     Event_UnmarshalJSON e0 (Some (JObject ms)) = (e, None) →
     (∀ f, (∀ k v, (k, v) ∈ ms → Event_field_of k ≠ Some f) →
           Event_agree f e Event_zero)
     ∧ ∀ k, k ∉ ms.*1 → Event_ExtraData e !! k = None)
  ∧ (∀ (e0 e : UserCustomEvent) (ms : list (string * json)),
       UserCustomEvent_UnmarshalJSON e0 (Some (JObject ms)) = (e, None) →
       (∀ f, (∀ k v, (k, v) ∈ ms → UserCustomEvent_field_of k ≠ Some f) →
             UserCustomEvent_agree f e UserCustomEvent_zero)
       ∧ ∀ k, k ∉ ms.*1 → UserCustomEvent_ExtraData e !! k = None).
Proof.
  assert (Hextra : ∀ (ms : list (string * json)) names k,
            k ∉ ms.*1 → removeFromMap (store_members ms ∅) names !! k = None).
  { intros ms names k Hk. rewrite lookup_removeFromMap.
    destruct (decide (k ∈ names)); [done |].
    assert (Hgen : ∀ m : gmap string json,
              m !! k = None → store_members ms m !! k = None).
    { induction ms as [| [k' v'] ms IH]; intros m Hm; [done |].
      rewrite store_members_cons. rewrite fmap_cons, not_elem_of_cons in Hk.
      destruct Hk as [Hne Hk]. apply IH; [done |].
      by rewrite lookup_insert_ne. }
    by apply Hgen. }
  split.
  - intros e0 e ms. unfold Event_UnmarshalJSON, json_Unmarshal_eventForJSON.
    cbn [json_Unmarshal_struct json_Unmarshal_map].
    destruct (decode_object _ _ _ ms Event_zero) as [e2 | err] eqn:He2; [| done].
    rewrite (Event_decode_ExtraData _ _ _ He2).
    destruct (forallb _ ms); [| done]. intros Heq.
    assert (e = Event_set_ExtraData
                  (removeFromMap (store_members ms (Event_ExtraData Event_zero))
                     Event_names) e2) as -> by congruence.
    split.
    + intros f Hf. eapply Event_agree_trans; [apply Event_agree_set_ExtraData |].
      eapply (decode_object_untouched Event_fields Event_name Event_store
                Event_agree); [apply Event_agree_refl | apply Event_agree_trans
                              | apply Event_store_other | exact Hf | exact He2].
    + intros k Hk. rewrite Event_ExtraData_set. by apply Hextra.
  - intros e0 e ms.
    unfold UserCustomEvent_UnmarshalJSON, json_Unmarshal_userCustomEventForJSON.
    cbn [json_Unmarshal_struct json_Unmarshal_map].
    destruct (decode_object _ _ _ ms UserCustomEvent_zero) as [e2 | err] eqn:He2;
      [| done].
    rewrite (UserCustomEvent_decode_ExtraData _ _ _ He2).
    destruct (forallb _ ms); [| done]. intros Heq.
    assert (e = UserCustomEvent_set_ExtraData
                  (removeFromMap
                     (store_members ms
                        (UserCustomEvent_ExtraData UserCustomEvent_zero))
                     UserCustomEvent_names) e2) as -> by congruence.
    split.
    + intros f Hf.
      eapply UserCustomEvent_agree_trans;
        [apply UserCustomEvent_agree_set_ExtraData |].
      eapply (decode_object_untouched UserCustomEvent_fields UserCustomEvent_name
                UserCustomEvent_store UserCustomEvent_agree);
        [apply UserCustomEvent_agree_refl | apply UserCustomEvent_agree_trans
        | apply UserCustomEvent_store_other | exact Hf | exact He2].
    + intros k Hk. rewrite UserCustomEvent_ExtraData_set. by apply Hextra.
Qed.

Lemma decode_resets_absent_fields_witness :
  Event_CID (Event_UnmarshalJSON Sample.event
               (Some (JObject [("type", JString "x")]))).1 = ""
  ∧ Event_ExtraData (Event_UnmarshalJSON Sample.event
                       (Some (JObject [("type", JString "x")]))).1 !! "zeta"
    = None.
Proof.
  destruct (proj1 decode_resets_absent_fields Sample.event
              (Event_UnmarshalJSON Sample.event
                 (Some (JObject [("type", JString "x")]))).1
              [("type", JString "x")]) as [Hfield Hextra]; [by vm_compute |].
  split.
  - apply (Hfield fCID). intros k v Hin.
    apply elem_of_cons in Hin as [Heq | Hin]; [| by apply elem_of_nil in Hin].
    injection Heq as -> ->. by vm_compute.
  - apply Hextra. apply (bool_decide_unpack _). by vm_compute.
Defined.

Lemma forallb_generic_elem (ms : list (string * json)) k v :
  forallb (λ kv, generic_ok kv.2) ms = true → (k, v) ∈ ms → generic_ok v = true.
Proof.
  intros Hall Hin. apply list_elem_of_In in Hin.
  apply (proj1 (forallb_forall _ _) Hall (k, v) Hin).
Qed.

Lemma extra_of_members (ms : list (string * json)) names k v :
  NoDup ms.*1 →
  forallb (λ kv, generic_ok kv.2) ms = true →
  removeFromMap (store_members ms ∅) names !! k = Some v
  ↔ (k, v) ∈ ms ∧ k ∉ names.
Proof.
  intros Hnd Hall. rewrite lookup_removeFromMap.
  destruct (decide (k ∈ names)) as [Hin | Hnin]; [by split; [| intros []] |].
  rewrite store_members_lookup, lookup_empty by done.
  destruct (list_to_map ms !! k) as [v' |] eqn:Hv'.
  - apply elem_of_list_to_map_2 in Hv' as Hin'.
    rewrite (interface_of_generic_ok v')
      by (by eapply forallb_generic_elem).
    split.
    + by intros [= <-].
    + intros [Hin _]. f_equal.
      apply (elem_of_list_to_map_1 (M := gmap string)) in Hin; [| done].
      congruence.
  - split; [done |]. intros [Hin _].
    apply (elem_of_list_to_map_1 (M := gmap string)) in Hin; [| done].
    congruence.
Qed.

(** X5.  When a document with pairwise distinct keys decodes, the extra map
    holds exactly the members whose key is not a known field's wire name,
    each with its value.  That includes a key that differs from a wire name
    by case only, although it is stored into the field as well. *)
Theorem extra_holds_unnamed_members `{Codecs} :
  (∀ (e0 e : Event) (ms : list (string * json)) (k : string) (v : json),
     NoDup ms.*1 →
     Event_UnmarshalJSON e0 (Some (JObject ms)) = (e, None) →
     Event_ExtraData e !! k = Some v ↔ (k, v) ∈ ms ∧ k ∉ Event_names)
  ∧ (∀ (e0 e : UserCustomEvent) (ms : list (string * json)) (k : string)
       (v : json),
       NoDup ms.*1 →
       UserCustomEvent_UnmarshalJSON e0 (Some (JObject ms)) = (e, None) →
       UserCustomEvent_ExtraData e !! k = Some v
       ↔ (k, v) ∈ ms ∧ k ∉ UserCustomEvent_names).
Proof.
  split.
  - intros e0 e ms k v Hnd.
    unfold Event_UnmarshalJSON, json_Unmarshal_eventForJSON.
    cbn [json_Unmarshal_struct json_Unmarshal_map].
    destruct (decode_object _ _ _ ms Event_zero) as [e2 | err] eqn:He2; [| done].
    rewrite (Event_decode_ExtraData _ _ _ He2).
    destruct (forallb _ ms) eqn:Hall; [| done]. intros Heq.
    assert (e = Event_set_ExtraData
                  (removeFromMap (store_members ms (Event_ExtraData Event_zero))
                     Event_names) e2) as -> by congruence.
    rewrite Event_ExtraData_set. by apply extra_of_members.
  - intros e0 e ms k v Hnd.
    unfold UserCustomEvent_UnmarshalJSON, json_Unmarshal_userCustomEventForJSON.
    cbn [json_Unmarshal_struct json_Unmarshal_map].
    destruct (decode_object _ _ _ ms UserCustomEvent_zero) as [e2 | err] eqn:He2;
      [| done].
    rewrite (UserCustomEvent_decode_ExtraData _ _ _ He2).
    destruct (forallb _ ms) eqn:Hall; [| done]. intros Heq.
    assert (e = UserCustomEvent_set_ExtraData
                  (removeFromMap
                     (store_members ms
                        (UserCustomEvent_ExtraData UserCustomEvent_zero))
                     UserCustomEvent_names) e2) as -> by congruence.
    rewrite UserCustomEvent_ExtraData_set. by apply extra_of_members.
Qed.

Lemma extra_holds_unnamed_members_witness :
  let d := [("Cid", JString "c1"); ("type", JString "x"); ("color", JString "red")] in
  let e := (Event_UnmarshalJSON Event_zero (Some (JObject d))).1 in
  Event_CID e = "c1"
  ∧ (Event_ExtraData e !! "Cid" = Some (JString "c1")
     ↔ ("Cid", JString "c1") ∈ d ∧ "Cid" ∉ Event_names).
Proof.
  intros d e. split; [by vm_compute |].
  apply (proj1 extra_holds_unnamed_members Event_zero e d).
  - apply (bool_decide_unpack _). by vm_compute.
  - by vm_compute.
Defined.

(** X6.  Once the known fields of a document decode, the receiver is
    overwritten whatever it held, also when an error is returned after that:
    a document whose known fields are fine but which holds a number outside
    float64 makes UnmarshalJSON return an error and still leaves the receiver
    with the fields of the document. *)
Theorem typed_success_overwrites_receiver `{Codecs} :
  (∀ (e0 e0' : Event) (d : data),
     Event_typed_ok d = true →
     Event_UnmarshalJSON e0 d = Event_UnmarshalJSON e0' d
     ∧ (map_ok d = false → (Event_UnmarshalJSON e0 d).2 ≠ None))
  ∧ (∀ (e0 e0' : UserCustomEvent) (d : data),
       UserCustomEvent_typed_ok d = true →
       UserCustomEvent_UnmarshalJSON e0 d = UserCustomEvent_UnmarshalJSON e0' d
       ∧ (map_ok d = false → (UserCustomEvent_UnmarshalJSON e0 d).2 ≠ None)).
Proof.
  split.
  - intros e0 e0' d. rewrite <- (Event_Unmarshal_struct_ok d Event_zero).
    unfold Event_UnmarshalJSON.
    destruct (json_Unmarshal_eventForJSON d Event_zero) as [e2 | err]; [| done].
    intros _. split; [done |]. intros Hmap.
    pose proof (json_Unmarshal_map_ok d (Event_ExtraData e2)) as Hok.
    destruct (json_Unmarshal_map d (Event_ExtraData e2)) as [m [err |]];
      [done |]. simpl in Hok. rewrite Hmap in Hok. intros _.
    discriminate (proj1 Hok eq_refl).
  - intros e0 e0' d.
    rewrite <- (UserCustomEvent_Unmarshal_struct_ok d UserCustomEvent_zero).
    unfold UserCustomEvent_UnmarshalJSON.
    destruct (json_Unmarshal_userCustomEventForJSON d UserCustomEvent_zero)
      as [e2 | err]; [| done].
    intros _. split; [done |]. intros Hmap.
    pose proof (json_Unmarshal_map_ok d (UserCustomEvent_ExtraData e2)) as Hok.
    destruct (json_Unmarshal_map d (UserCustomEvent_ExtraData e2))
      as [m [err |]]; [done |].
    simpl in Hok. rewrite Hmap in Hok. intros _.
    discriminate (proj1 Hok eq_refl).
Qed.

Lemma typed_success_overwrites_receiver_witness :
  let d := Some (JObject [("type", JString "x"); ("big", JNumber (Decimal 1 999))]) in
  (Event_UnmarshalJSON Sample.event d).2 ≠ None
  ∧ Event_Type (Event_UnmarshalJSON Sample.event d).1 = "x"
  ∧ Event_CID (Event_UnmarshalJSON Sample.event d).1 = "".
Proof.
  intros d. split; [| by vm_compute].
  apply (proj1 typed_success_overwrites_receiver Sample.event Event_zero d);
    by vm_compute.
Defined.

(** ** The order of the members *)

(** Stores into two different fields can be done in either order. *)
Lemma decode_object_Permutation {S F} `{EqDecision F} (fields : list F)
    (name : F → string) (store : F → json → S → result S) ms ms' :
  (∀ f g v w s s1 s2,
     f ≠ g → store f v s = Ok s1 → store g w s1 = Ok s2 →
     ∃ s1', store g w s = Ok s1' ∧ store f v s1' = Ok s2) →
  ms ≡ₚ ms' →
  NoDup (foldName <$> ms.*1) →
  ∀ s r, decode_object fields name store ms s = Ok r →
         decode_object fields name store ms' s = Ok r.
Proof.
  intros Hcomm Hperm.
  induction Hperm as [| [k v] l l' Hperm IH | [kx vx] [ky vy] l
                      | l1 l2 l3 Hperm1 IH1 Hperm2 IH2]; intros Hnd s r.
  - done.
  - rewrite !fmap_cons in Hnd. apply NoDup_cons in Hnd as [_ Hnd]. simpl.
    destruct (lookup_field fields name k) as [f |]; [| by apply IH].
    destruct (store f v s) as [s1 | err]; [| done]. simpl. by apply IH.
  - rewrite !fmap_cons in Hnd. cbn [fst] in Hnd.
    apply NoDup_cons in Hnd as [Hne _]. rewrite not_elem_of_cons in Hne.
    destruct Hne as [Hne _]. simpl.
    destruct (lookup_field fields name ky) as [g |] eqn:Hg;
      destruct (lookup_field fields name kx) as [f |] eqn:Hf; try done.
    destruct (store g vy s) as [s1 | err] eqn:Hs1; [| done]. simpl.
    destruct (store f vx s1) as [s2 | err] eqn:Hs2; [| done]. simpl.
    assert (g ≠ f) as Hgf.
    { intros ->. apply Hne.
      apply lookup_field_Some in Hg as [_ <-].
      by apply lookup_field_Some in Hf as [_ <-]. }
    destruct (Hcomm g f vy vx s s1 s2 Hgf Hs1 Hs2) as (s1' & -> & Hs2'). simpl.
    by rewrite Hs2'.
  - intros Hdec. apply IH2; [by rewrite <- Hperm1 |]. by apply IH1.
Qed.

Lemma store_members_Permutation ms ms' :
  ms ≡ₚ ms' → NoDup ms.*1 → store_members ms ∅ = store_members ms' ∅.
Proof.
  intros Hperm Hnd. apply map_eq. intros k.
  rewrite !store_members_lookup; [| by rewrite <- Hperm | done].
  by rewrite (list_to_map_proper ms ms' Hnd Hperm).
Qed.

Lemma forallb_Permutation {A} (p : A → bool) (l l' : list A) :
  l ≡ₚ l' → forallb p l = forallb p l'.
Proof.
  induction 1 as [| x l l' _ IH | x y l | l1 l2 l3 _ IH1 _ IH2]; simpl.
  - done.
  - by rewrite IH.
  - by destruct (p x), (p y).
  - by rewrite IH1.
Qed.

Lemma Event_store_comm `{Codecs} f g v w (s s1 s2 : Event) :
  f ≠ g → Event_store f v s = Ok s1 → Event_store g w s1 = Ok s2 →
  ∃ s1', Event_store g w s = Ok s1' ∧ Event_store f v s1' = Ok s2.
Proof.
  intros Hne H1 H2. destruct s, f, g; try done; simpl in *;
    repeat match goal with
      | Hb : mbind _ ?r = Ok _ |- _ => destruct r eqn:?; simplify_eq/=
      end;
    (eexists; split; [reflexivity |]; simpl;
     repeat match goal with
       | Hr : ?r = Ok _ |- context [?r] => rewrite Hr
       end; reflexivity).
Qed.

Lemma UserCustomEvent_store_comm `{Codecs} f g v w (s s1 s2 : UserCustomEvent) :
  f ≠ g → UserCustomEvent_store f v s = Ok s1 →
  UserCustomEvent_store g w s1 = Ok s2 →
  ∃ s1', UserCustomEvent_store g w s = Ok s1'
         ∧ UserCustomEvent_store f v s1' = Ok s2.
Proof.
  intros Hne H1 H2. destruct s, f, g; try done; simpl in *;
    repeat match goal with
      | Hb : mbind _ ?r = Ok _ |- _ => destruct r eqn:?; simplify_eq/=
      end;
    (eexists; split; [reflexivity |]; simpl;
     repeat match goal with
       | Hr : ?r = Ok _ |- context [?r] => rewrite Hr
       end; reflexivity).
Qed.

(** X7.  The order of the members of a document does not matter as long as
    its keys are pairwise distinct up to letter case: if the document
    decodes, so does every reordering of it, to the same event. *)
Theorem decode_any_member_order `{Codecs} :
  (∀ (e0 e : Event) (ms ms' : list (string * json)),
     ms ≡ₚ ms' → NoDup (foldName <$> ms.*1) →
     Event_UnmarshalJSON e0 (Some (JObject ms)) = (e, None) →
     Event_UnmarshalJSON e0 (Some (JObject ms')) = (e, None))
  ∧ (∀ (e0 e : UserCustomEvent) (ms ms' : list (string * json)),
       ms ≡ₚ ms' → NoDup (foldName <$> ms.*1) →
       UserCustomEvent_UnmarshalJSON e0 (Some (JObject ms)) = (e, None) →
       UserCustomEvent_UnmarshalJSON e0 (Some (JObject ms')) = (e, None)).
Proof.
  split.
  - intros e0 e ms ms' Hperm Hnd.
    unfold Event_UnmarshalJSON, json_Unmarshal_eventForJSON.
    cbn [json_Unmarshal_struct json_Unmarshal_map].
    destruct (decode_object _ _ _ ms Event_zero) as [e2 | err] eqn:He2; [| done].
    rewrite (decode_object_Permutation Event_fields Event_name Event_store ms ms'
               Event_store_comm Hperm Hnd Event_zero e2 He2).
    rewrite (Event_decode_ExtraData _ _ _ He2).
    change (Event_ExtraData Event_zero) with (∅ : gmap string json).
    rewrite <- (forallb_Permutation _ ms ms' Hperm).
    by rewrite (store_members_Permutation ms ms' Hperm (NoDup_fmap_1 _ _ Hnd)).
  - intros e0 e ms ms' Hperm Hnd.
    unfold UserCustomEvent_UnmarshalJSON, json_Unmarshal_userCustomEventForJSON.
    cbn [json_Unmarshal_struct json_Unmarshal_map].
    destruct (decode_object _ _ _ ms UserCustomEvent_zero) as [e2 | err] eqn:He2;
      [| done].
    rewrite (decode_object_Permutation UserCustomEvent_fields UserCustomEvent_name
               UserCustomEvent_store ms ms' UserCustomEvent_store_comm Hperm Hnd
               UserCustomEvent_zero e2 He2).
    rewrite (UserCustomEvent_decode_ExtraData _ _ _ He2).
    change (UserCustomEvent_ExtraData UserCustomEvent_zero)
      with (∅ : gmap string json).
    rewrite <- (forallb_Permutation _ ms ms' Hperm).
    by rewrite (store_members_Permutation ms ms' Hperm (NoDup_fmap_1 _ _ Hnd)).
Qed.

Lemma decode_any_member_order_witness :
  Event_UnmarshalJSON Event_zero
    (Some (JObject [("color", JString "red"); ("type", JString "x");
                    ("cid", JString "c1")]))
  = Event_UnmarshalJSON Event_zero
      (Some (JObject [("cid", JString "c1"); ("type", JString "x");
                      ("color", JString "red")])).
Proof.
  symmetry.
  assert (Hright : Event_UnmarshalJSON Event_zero
            (Some (JObject [("cid", JString "c1"); ("type", JString "x");
                            ("color", JString "red")]))
          = ((Event_UnmarshalJSON Event_zero
                (Some (JObject [("cid", JString "c1"); ("type", JString "x");
                                ("color", JString "red")]))).1, None))
    by (by vm_compute).
  rewrite Hright at 1. symmetry.
  apply (proj1 decode_any_member_order Event_zero _
           [("cid", JString "c1"); ("type", JString "x"); ("color", JString "red")]).
  - apply (Permutation_rev [_; _; _]).
  - apply (bool_decide_unpack _). by vm_compute.
  - exact Hright.
Defined.

(** ** More on the request paths *)

Lemma upperhex_inj (a b : N) :
  (a < 16)%N → (b < 16)%N → upperhex a = upperhex b → a = b.
Proof.
  intros Ha Hb Heq. apply N2Nat.inj. unfold upperhex in Heq.
  assert (Hx : (N.to_nat a < 16)%nat) by lia.
  assert (Hy : (N.to_nat b < 16)%nat) by lia.
  revert Heq. generalize (N.to_nat a) (N.to_nat b) Hx Hy. intros x y Hx' Hy'.
  do 16 (destruct x as [| x];
         [do 16 (destruct y as [| y]; [done |]); lia |]).
  lia.
Qed.

Lemma ascii_of_hex (c c' : ascii) :
  upperhex (N_of_ascii c / 16) = upperhex (N_of_ascii c' / 16) →
  upperhex (N_of_ascii c mod 16) = upperhex (N_of_ascii c' mod 16) →
  c = c'.
Proof.
  intros Hhi Hlo.
  pose proof (N_ascii_bounded c) as Hc. pose proof (N_ascii_bounded c') as Hc'.
  apply upperhex_inj in Hhi;
    [| apply N.Div0.div_lt_upper_bound; lia | apply N.Div0.div_lt_upper_bound; lia].
  apply upperhex_inj in Hlo; [| apply N.mod_lt; lia | apply N.mod_lt; lia].
  rewrite <- (ascii_N_embedding c), <- (ascii_N_embedding c'). f_equal.
  rewrite (N.div_mod (N_of_ascii c) 16), (N.div_mod (N_of_ascii c') 16) by lia.
  by rewrite Hhi, Hlo.
Qed.

(** Different strings have different escapes. *)
Lemma PathEscape_inj s s' : PathEscape s = PathEscape s' → s = s'.
Proof.
  revert s'. induction s as [| c s IH]; intros [| c' s']; simpl.
  - done.
  - by destruct (shouldEscape c').
  - by destruct (shouldEscape c).
  - destruct (shouldEscape c) eqn:Hc, (shouldEscape c') eqn:Hc'.
    + intros [= Hhi Hlo Hrest]. by rewrite (ascii_of_hex c c'), (IH s').
    + intros [= <- _]. by vm_compute in Hc'.
    + intros [= -> _]. by vm_compute in Hc.
    + intros [= -> Hrest]. by rewrite (IH s').
Qed.

Lemma slash_free_not_rooted e :
  e ≠ "" → split_slash e = [e] → is_rooted e = false.
Proof.
  destruct e as [| c e]; [done |]. intros _. simpl.
  by destruct (Ascii.eqb c "/").
Qed.

Lemma is_rooted_app e r : e ≠ "" → is_rooted (e +:+ r) = is_rooted e.
Proof. by destruct e. Qed.

Lemma split_slash_concat (segs : list string) :
  segs ≠ [] → Forall (λ a, split_slash a = [a]) segs →
  split_slash (String.concat "/" segs) = segs.
Proof.
  induction segs as [| a segs IH]; [done |]. intros _ Hall.
  apply Forall_cons in Hall as [Ha Hall].
  destruct segs as [| b segs]; [done |].
  change (String.concat "/" (a :: b :: segs))
    with (a +:+ String "/" (String.concat "/" (b :: segs))).
  by rewrite split_slash_element, IH.
Qed.

Lemma is_rooted_concat e rest :
  e ≠ "" → split_slash e = [e] →
  is_rooted (String.concat "/" (e :: rest)) = false.
Proof.
  intros Hne He. destruct rest as [| b rest]; simpl.
  - by apply slash_free_not_rooted.
  - rewrite is_rooted_app by done. by apply slash_free_not_rooted.
Qed.

(** path.Join on elements without a slash, the first one not empty: the
    cleaned elements, joined. *)
Lemma path_Join_slash_free e rest :
  e ≠ "" → Forall (λ a, split_slash a = [a]) (e :: rest) →
  path_Join (e :: rest)
  = let out := String.concat "/"
                 (rev (clean_elements false (e :: rest) [])) in
    if bool_decide (out = "") then "." else out.
Proof.
  intros Hne Hall. cbn [path_Join]. rewrite bool_decide_eq_false_2 by done.
  unfold path_Clean.
  rewrite is_rooted_concat by (done || by apply Forall_cons in Hall as [? _]).
  by rewrite split_slash_concat.
Qed.

Lemma split_channels a b :
  split_slash a = [a] → split_slash b = [b] →
  split_slash ("channels/" +:+ a +:+ "/" +:+ b +:+ "/event")
  = ["channels"; a; b; "event"].
Proof.
  intros Ha Hb.
  apply (split_slash_concat ["channels"; a; b; "event"]); [done |].
  by repeat constructor.
Qed.

Lemma split_users a :
  split_slash a = [a] →
  split_slash ("users/" +:+ a +:+ "/event") = ["users"; a; "event"].
Proof.
  intros Ha. apply (split_slash_concat ["users"; a; "event"]); [done |].
  by repeat constructor.
Qed.

Lemma SendEvent_request `{Codecs} (roundTrip : Request → Response * option error)
    (ch : Channel) (ev : Event) userID (w : World) req :
  (SendEvent roundTrip ch (Some ev) userID w).2 = w ++ [req] →
  Request_method req = "POST"
  ∧ Request_path req
    = path_Join ["channels"; PathEscape (Channel_Type ch);
                 PathEscape (Channel_ID ch); "event"].
Proof.
  unfold SendEvent, makeRequest. destruct (roundTrip _) as [resp err].
  cbn [snd]. by intros [_ <-]%app_inj_tail.
Qed.

Lemma SendUserCustomEvent_request `{Codecs}
    (roundTrip : Request → Response * option error)
    (c : Client) target (ev : option UserCustomEvent) (w : World) req :
  (SendUserCustomEvent roundTrip c target ev w).2 = w ++ [req] →
  Request_method req = "POST"
  ∧ Request_path req = path_Join ["users"; PathEscape target; "event"].
Proof.
  unfold SendUserCustomEvent, makeRequest. destruct ev as [ev |].
  - case_bool_decide.
    + by intros ?%symmetry%app_singleton_ne.
    + destruct (roundTrip _) as [resp err]. cbn [snd].
      by intros [_ <-]%app_inj_tail.
  - by intros ?%symmetry%app_singleton_ne.
Qed.

(** X8.  Two channels whose types and ids are not empty, "." or ".." get
    the same request path only if they have the same type and the same id,
    and two target users that are not "." or ".." only if they are the same
    user: escaping then keeps the path from confusing them. *)
Theorem distinct_targets_distinct_paths `{Codecs}
    (roundTrip : Request → Response * option error) :
  (∀ (ch ch' : Channel) (ev ev' : Event) (u u' : string) (w w' : World)
     (req req' : Request),
     Channel_Type ch ∉ [""; "."; ".."] → Channel_ID ch ∉ [""; "."; ".."] →
     Channel_Type ch' ∉ [""; "."; ".."] → Channel_ID ch' ∉ [""; "."; ".."] →
     (SendEvent roundTrip ch (Some ev) u w).2 = w ++ [req] →
     (SendEvent roundTrip ch' (Some ev') u' w').2 = w' ++ [req'] →
     Request_path req = Request_path req' →
     Channel_Type ch = Channel_Type ch' ∧ Channel_ID ch = Channel_ID ch')
  ∧ (∀ (c c' : Client) (t t' : string) (ev ev' : option UserCustomEvent)
       (w w' : World) (req req' : Request),
       t ∉ [""; "."; ".."] → t' ∉ [""; "."; ".."] →
       (SendUserCustomEvent roundTrip c t ev w).2 = w ++ [req] →
       (SendUserCustomEvent roundTrip c' t' ev' w').2 = w' ++ [req'] →
       Request_path req = Request_path req' → t = t').
Proof.
  split.
  - intros ch ch' ev ev' u u' w w' req req' Hty Hid Hty' Hid'
      [_ Hp]%SendEvent_request [_ Hp']%SendEvent_request Heq.
    rewrite Hp, Hp' in Heq.
    rewrite !path_Join_channels in Heq;
      try apply split_slash_PathEscape;
      try (intros Hin%PathEscape_special; contradiction).
    apply (f_equal split_slash) in Heq.
    rewrite !split_channels in Heq by apply split_slash_PathEscape.
    injection Heq as Ht Hi. by split; apply PathEscape_inj.
  - intros c c' t t' ev ev' w w' req req' Ht Ht'
      [_ Hp]%SendUserCustomEvent_request [_ Hp']%SendUserCustomEvent_request Heq.
    rewrite Hp, Hp' in Heq.
    rewrite !path_Join_users in Heq;
      try apply split_slash_PathEscape;
      try (intros Hin%PathEscape_special; contradiction).
    apply (f_equal split_slash) in Heq.
    rewrite !split_users in Heq by apply split_slash_PathEscape.
    injection Heq as Heq. by apply PathEscape_inj.
Qed.

Lemma distinct_targets_distinct_paths_witness :
  let ch : Channel := ("messaging", "general/team") in
  let ch' : Channel := ("messaging", "general/team") in
  (SendEvent Sample.roundTrip ch (Some Sample.event) "bob" []).2
  = [] ++ [Build_Request (Channel_client ch) "POST" "channels/messaging/general%2Fteam/event"
             (EventBody (Event_set_User (Some (Build_User _ "bob" UserFields_zero))
                           Sample.event))]
  ∧ Channel_Type ch = Channel_Type ch' ∧ Channel_ID ch = Channel_ID ch'.
Proof.
  intros ch ch'. split; [by vm_compute |].
  apply (proj1 (distinct_targets_distinct_paths Sample.roundTrip) ch ch'
           Sample.event Event_zero "bob" "carol" [] []
           (Build_Request (Channel_client ch) "POST" "channels/messaging/general%2Fteam/event"
              (EventBody (Event_set_User (Some (Build_User _ "bob" UserFields_zero))
                            Sample.event)))
           (Build_Request (Channel_client ch) "POST" "channels/messaging/general%2Fteam/event"
              (EventBody (Event_set_User (Some (Build_User _ "carol" UserFields_zero))
                            Event_zero))));
    try (apply (bool_decide_unpack _); by vm_compute); by vm_compute.
Defined.

Lemma clean_elements_skip rooted seg segs out :
  seg ∈ [""; "."] →
  clean_elements rooted (seg :: segs) out = clean_elements rooted segs out.
Proof.
  rewrite !elem_of_cons, elem_of_nil. intros [-> | [-> | []]]; done.
Qed.

(** X9.  A channel id that is empty or "." leaves no segment of its own:
    the request goes to "channels/" + PathEscape(type) + "/event"; the id
    ".." takes the type's segment away with it and the request goes to
    "channels/event".  (The channel type is none of the three.) *)
Theorem degenerate_channel_id_paths `{Codecs}
    (roundTrip : Request → Response * option error) :
  ∀ (ch : Channel) (ev : Event) (userID : string) (w : World),
    Channel_Type ch ∉ [""; "."; ".."] →
    ∃ req, (SendEvent roundTrip ch (Some ev) userID w).2 = w ++ [req]
           ∧ (Channel_ID ch ∈ [""; "."] →
              Request_path req
              = "channels/" +:+ PathEscape (Channel_Type ch) +:+ "/event")
           ∧ (Channel_ID ch = ".." → Request_path req = "channels/event").
Proof.
  intros ch ev userID w Hty.
  assert (Hety : PathEscape (Channel_Type ch) ∉ [""; "."; ".."])
    by (intros Hin%PathEscape_special; contradiction).
  assert (Hjoin : ∀ i, path_Join ["channels"; PathEscape (Channel_Type ch);
                                  PathEscape i; "event"]
                       = String.concat "/"
                           (rev (clean_elements false
                                   [PathEscape i; "event"]
                                   [PathEscape (Channel_Type ch); "channels"]))).
  { intros i. rewrite path_Join_slash_free; [| done |].
    2:{ repeat constructor; apply split_slash_PathEscape. }
    rewrite (clean_elements_plain false "channels")
      by (apply (bool_decide_unpack _); by vm_compute).
    rewrite (clean_elements_plain false (PathEscape _)) by done.
    cbv zeta. rewrite bool_decide_eq_false_2; [done |].
    generalize (PathEscape i). intros a Hempty.
    apply (f_equal String.length) in Hempty. revert Hempty.
    cbn [clean_elements].
    repeat case_bool_decide; simpl; rewrite ?length_app; simpl;
      try done. }
  unfold SendEvent, makeRequest. destruct (roundTrip _) as [resp err].
  eexists. split; [reflexivity |]. cbn [Request_path]. rewrite Hjoin.
  split.
  - rewrite !elem_of_cons, elem_of_nil. intros [-> | [-> | []]].
    + by rewrite (clean_elements_skip false "") by apply list_elem_of_here.
    + by rewrite (clean_elements_skip false ".")
        by apply list_elem_of_further, list_elem_of_here.
  - intros ->. cbn [PathEscape clean_elements].
    change (shouldEscape ".") with false. cbv iota. cbn [clean_elements].
    rewrite !bool_decide_eq_false_2 by done.
    rewrite bool_decide_eq_true_2 by done.
    rewrite (bool_decide_eq_false_2 (PathEscape (Channel_Type ch) = ".."));
      [done |].
    intros Heq. apply Hety. rewrite Heq.
    do 2 apply list_elem_of_further. apply list_elem_of_here.
Qed.

Lemma degenerate_channel_id_paths_witness :
  ∃ req, (SendEvent Sample.roundTrip ("messaging", "") (Some Sample.event)
            "bob" []).2 = [] ++ [req]
         ∧ Request_path req = "channels/messaging/event".
Proof.
  destruct (degenerate_channel_id_paths Sample.roundTrip ("messaging", "")
              Sample.event "bob" []) as (req & Hw & Hempty & _).
  - apply (bool_decide_unpack _). by vm_compute.
  - exists req. split; [done |]. apply Hempty, list_elem_of_here.
Defined.

Lemma plain_path_app a b : plain_path (a +:+ b) = plain_path a && plain_path b.
Proof.
  unfold plain_path. induction a as [| c a IH]; [done |].
  simpl. by rewrite IH, andb_assoc.
Qed.

(** What url.PathEscape leaves unescaped is a path character. *)
Lemma shouldEscape_segment_char c : shouldEscape c = false → segment_char c = true.
Proof.
  destruct c as [[] [] [] [] [] [] [] []]; intros Hc;
    by vm_compute in Hc |- *.
Qed.

Lemma segment_char_upperhex n : segment_char (upperhex n) = true.
Proof.
  unfold upperhex. generalize (N.to_nat n). intros k.
  do 17 (destruct k as [| k]; [done |]). done.
Qed.

Lemma plain_path_PathEscape s : plain_path (PathEscape s) = true.
Proof.
  unfold plain_path. induction s as [| c s IH]; [done |].
  cbn [PathEscape]. destruct (shouldEscape c) eqn:Hc;
    cbn [list_ascii_of_string forallb]; rewrite IH.
  - assert (Hhex : ∀ n, path_char (upperhex n) = true)
      by (intros n; unfold path_char; by rewrite segment_char_upperhex).
    by rewrite !Hhex.
  - unfold path_char. by rewrite (shouldEscape_segment_char c Hc).
Qed.

Lemma plain_path_concat (segs : list string) :
  Forall (λ a, plain_path a = true) segs →
  plain_path (String.concat "/" segs) = true.
Proof.
  induction 1 as [| a segs Ha Hall IH]; [done |].
  destruct segs as [| b segs]; [done |].
  change (String.concat "/" (a :: b :: segs))
    with (a +:+ "/" +:+ String.concat "/" (b :: segs)).
  by rewrite !plain_path_app, Ha, IH.
Qed.

(** Cleaning makes no element of its own. *)
Lemma clean_elements_Forall (P : string → Prop) rooted segs out :
  Forall P segs → Forall P out → Forall P (clean_elements rooted segs out).
Proof.
  intros Hsegs. revert out.
  induction Hsegs as [| seg segs Hseg Hsegs IH]; intros out Hout; [done |].
  cbn [clean_elements].
  destruct (bool_decide (seg = "") || bool_decide (seg = ".")); [by apply IH |].
  destruct (bool_decide (seg = "..")); [| by apply IH; constructor].
  destruct out as [| top out'].
  - destruct rooted; apply IH; by repeat constructor.
  - destruct (bool_decide (top = "..")).
    + apply IH. by constructor.
    + apply IH. by apply Forall_cons in Hout as [_ ?].
Qed.

Lemma plain_path_Join e rest :
  e ≠ "" → Forall (λ a, split_slash a = [a]) (e :: rest) →
  Forall (λ a, plain_path a = true) (e :: rest) →
  plain_path (path_Join (e :: rest)) = true.
Proof.
  intros Hne Hfree Hplain. rewrite path_Join_slash_free by done. cbv zeta.
  case_bool_decide; [done |].
  apply plain_path_concat, Forall_rev. by apply clean_elements_Forall.
Qed.

(** X10.  Whatever the channel type, the channel id and the target user id
    are, the path of a request either call issues is made of letters,
    digits, the marks that need no escape, '%' and '/' only: no '?', no '#',
    no space and no byte outside ASCII gets into it. *)
Theorem request_paths_are_plain `{Codecs}
    (roundTrip : Request → Response * option error) :
  (∀ (ch : Channel) (ev : Event) (userID : string) (w : World),
     ∃ req, (SendEvent roundTrip ch (Some ev) userID w).2 = w ++ [req]
            ∧ plain_path (Request_path req) = true)
  ∧ (∀ (c : Client) (targetUserID : string) (ev : UserCustomEvent) (w : World),
       targetUserID = ""
       ∨ ∃ req, (SendUserCustomEvent roundTrip c targetUserID (Some ev) w).2
                = w ++ [req]
                ∧ plain_path (Request_path req) = true)
  ∧ path_char "?" = false ∧ path_char "#" = false ∧ path_char " " = false.
Proof.
  split; [| split; [| done]].
  - intros ch ev userID w. unfold SendEvent, makeRequest.
    destruct (roundTrip _) as [resp err]. eexists. split; [reflexivity |].
    cbn [Request_path]. apply plain_path_Join; [done | |];
      repeat constructor;
      apply split_slash_PathEscape || apply plain_path_PathEscape.
  - intros c t ev w. destruct (decide (t = "")) as [| Hne]; [by left |]. right.
    unfold SendUserCustomEvent, makeRequest.
    rewrite bool_decide_eq_false_2 by done.
    destruct (roundTrip _) as [resp err]. eexists. split; [reflexivity |].
    cbn [Request_path]. apply plain_path_Join; [done | |];
      repeat constructor;
      apply split_slash_PathEscape || apply plain_path_PathEscape.
Qed.

(** ** Sending, then decoding *)

(** X11.  What SendEvent puts on the wire reads back as the event it left
    behind: decoding the object under "event" of the transmitted document
    gives exactly the event with User set to the acting user, the extra map
    included.  This is for an event that JSON carries, as in the round
    trip: with the acting user in place, its strings are valid UTF-8 and
    its embedded values, the acting user among them, are values their own
    JSON methods round-trip; the extra keys match no wire name up to case. *)
Theorem sent_event_decodes_back `{Codecs}
    (roundTrip : Request → Response * option error) :
  ∀ (ch : Channel) (ev e0 : Event) (userID : string) (w : World),
    Event_fields_portable
      (Event_set_User (Some (Build_User _ userID UserFields_zero)) ev) →
    map_Forall (λ k v, Event_field_of k = None ∧ extra_portable k v)
      (Event_ExtraData ev) →
    ∃ req ev' ms,
      (SendEvent roundTrip ch (Some ev) userID w).1.2 = Some ev'
      ∧ (SendEvent roundTrip ch (Some ev) userID w).2 = w ++ [req]
      ∧ json_Marshal_body (Request_body req)
        = Ok (Some (JObject [("event", JObject ms)]))
      ∧ Event_UnmarshalJSON e0 (Some (JObject ms)) = (ev', None)
      ∧ Event_User ev' = Some (Build_User _ userID UserFields_zero).
Proof.
  intros ch ev e0 userID w HK HE.
  set (ev' := Event_set_User (Some (Build_User _ userID UserFields_zero)) ev) in *.
  destruct (Event_decode_encode ev' (Event_ExtraData ev') e0) as (d & Hd & Hdec).
  { done. }
  { unfold ev'. rewrite Event_set_User_ExtraData.
    eapply map_Forall_impl; [exact HE |]. by intros k v (? & _ & _ & ?). }
  rewrite Event_set_ExtraData_id in Hd, Hdec.
  unfold SendEvent, makeRequest. fold ev'. destruct (roundTrip _) as [resp err].
  revert Hd Hdec. unfold Event_MarshalJSON, addToMapAndMarshal.
  intros [= <-] Hdec.
  eexists _, ev', _. split; [reflexivity |]. split; [reflexivity |].
  split; [reflexivity |]. split; [exact Hdec |].
  apply Event_User_set_User.
Qed.

Lemma sent_event_decodes_back_witness :
  ∃ req ev' ms,
    (SendEvent Sample.roundTrip ("messaging", "general") (Some Sample.event)
       "bob" []).1.2 = Some ev'
    ∧ (SendEvent Sample.roundTrip ("messaging", "general") (Some Sample.event)
         "bob" []).2 = [] ++ [req]
    ∧ json_Marshal_body (Request_body req)
      = Ok (Some (JObject [("event", JObject ms)]))
    ∧ Event_UnmarshalJSON Event_zero (Some (JObject ms)) = (ev', None)
    ∧ Event_User ev' = Some (Build_User _ "bob" UserFields_zero).
Proof.
  apply (sent_event_decodes_back Sample.roundTrip
           ("messaging", "general") Sample.event Event_zero "bob" []).
  - unfold Event_fields_portable, utf8_valid, lawful_pointer, lawful.
    repeat split; try done; try (by vm_compute).
    repeat constructor.
  - apply map_Forall_to_list. vm_compute map_to_list.
    repeat constructor.
Defined.
